(** * promise-pool: a bounded-concurrency task runner

    Shallow embedding of [src/index.ts] (the positional-argument version
    with [assert]-based validation), together with the validation prelude of
    the later options-object version, and the properties of the worker loop.

    The JavaScript event loop is modelled as an interleaving machine: every
    worker is suspended at one of the three [await]s of [worker], and one
    step resumes one worker and runs it to its next [await]. Any suspended
    worker may be the next one resumed, which covers every order in which
    the awaited promises can settle.

    The input is a finite sequence of items whose iterator does not throw;
    [iteratorFn] and [errorHandler] are functions of their arguments that
    return or throw, their asynchronous work being the time between the
    call and the resumption of the worker that awaits it. *)

From Stdlib Require Import QArith.
From stdpp Require Import base strings numbers list pretty.
Local Open Scope nat_scope.

(** ** JavaScript values, as far as the code inspects them *)

Module JsValue.

(** A JavaScript number: the finite doubles are rationals. *)
Inductive JsNum : Type :=
| NaN
| PosInf
| NegInf
| Fin (q : Q).

(** A value whose callable payload is [Fn] and whose iterable payload is
    [It]; [VObj] is a plain object that is neither. *)
Inductive JsVal (Fn It : Type) : Type :=
| VUndefined
| VNull
| VBool (b : bool)
| VNum (x : JsNum)
| VStr (s : string)
| VSym (id : nat)
| VObj
| VIter (it : It)
| VFun (f : Fn).

Arguments VUndefined {Fn It}.
Arguments VNull {Fn It}.
Arguments VBool {Fn It} b.
Arguments VNum {Fn It} x.
Arguments VStr {Fn It} s.
Arguments VSym {Fn It} id.
Arguments VObj {Fn It}.
Arguments VIter {Fn It} it.
Arguments VFun {Fn It} f.

(** [typeof v] *)
Definition typeof {Fn It} (v : JsVal Fn It) : string :=
  match v with
  | VUndefined => "undefined"
  | VNull => "object"
  | VBool _ => "boolean"
  | VNum _ => "number"
  | VStr _ => "string"
  | VSym _ => "symbol"
  | VObj => "object"
  | VIter _ => "object"
  | VFun _ => "function"
  end.

(** ToBoolean: what [assert(v)], [!v] and [if (v)] look at. *)
Definition truthy {Fn It} (v : JsVal Fn It) : bool :=
  match v with
  | VUndefined | VNull => false
  | VBool b => b
  | VNum NaN => false
  | VNum (Fin q) => negb (Qeq_bool q 0)
  | VNum _ => true
  | VStr s => negb (String.eqb s "")
  | VSym _ | VObj | VIter _ | VFun _ => true
  end.

(** [x > 0] on numbers. *)
Definition gt0 (x : JsNum) : bool :=
  match x with
  | NaN | NegInf => false
  | PosInf => true
  | Fin q => negb (Qle_bool q 0)
  end.

(** ToLength, as [Array.from] applies it to the [length] property:
    truncate towards zero, then clamp to [0, 2^53 - 1]. *)
Definition toLength (x : JsNum) : Z :=
  match x with
  | NaN | NegInf => 0
  | PosInf => 2 ^ 53 - 1
  | Fin q => Z.min (Z.max (Z.quot (Qnum q) (Zpos (Qden q))) 0) (2 ^ 53 - 1)
  end.

(** [Array.from({ length: x }, f)] first allocates [new Array(len)], which
    throws a RangeError unless [len < 2^32]; otherwise [f] is called [len]
    times. *)
Definition arrayFromLength (x : JsNum) : option nat :=
  let len := toLength x in
  if (len <? 2 ^ 32)%Z then Some (Z.to_nat len) else None.

(** [Symbol('POOL_STOP_SIGNAL')]: a fresh symbol, here the one with id 0. *)
Definition POOL_STOP_SIGNAL {Fn It} : JsVal Fn It := VSym 0.

(** [action === POOL_STOP_SIGNAL]: symbols are compared by identity. *)
Definition isStopSignal {Fn It} (action : JsVal Fn It) : bool :=
  match action with
  | VSym id => Nat.eqb id 0
  | _ => false
  end.

End JsValue.

Export JsValue.

(** A settled promise (or a call that returned or threw). *)
Inductive Settled (A E : Type) : Type :=
| Fulfilled (a : A)
| Rejected (e : E).
Arguments Fulfilled {A E} a.
Arguments Rejected {A E} e.

(** What a failure handler can hand back. *)
Definition Action : Type := JsVal unit unit.

(** ** The pool of [src/index.ts] *)

Module Pool.
Section Pool.
Context {T R E : Type}.

Definition IteratorFn : Type := T → Settled R E.
Definition ErrorHandler : Type := E → T → Settled Action E.

(** The argument types as the call site can really pass them. A string is
    iterable as well; [chars] gives its items. *)
Definition InputArg : Type := JsVal unit (list T).
Definition FnArg : Type := JsVal IteratorFn unit.
Definition ConcurrencyArg : Type := JsVal unit unit.
Definition HandlerArg : Type := JsVal ErrorHandler unit.

(** [assert(cond, msg)] *)
Definition assert (cond : bool) (msg : string) : Settled unit string :=
  if cond then Fulfilled () else Rejected msg.

Definition andThen {A} (c : Settled unit string) (k : Settled A string)
  : Settled A string :=
  match c with
  | Fulfilled _ => k
  | Rejected m => Rejected m
  end.

Definition _validateInput (input : InputArg) (iteratorFn : FnArg)
    (concurrency : ConcurrencyArg) (errorHandler : HandlerArg)
  : Settled unit string :=
  andThen (assert (truthy input) "input is required")
  (andThen (assert (String.eqb (typeof iteratorFn) "function")
              "iteratorFn must be a function")
  (andThen (assert (String.eqb (typeof concurrency) "number" &&
                    match concurrency with VNum x => gt0 x | _ => false end)
              "concurrency must be a positive number")
  (assert (negb (truthy errorHandler) ||
           String.eqb (typeof errorHandler) "function")
     "errorHandler must be a function"))).

(** *** The state shared by the workers *)

(** A worker is suspended at one of the three [await]s of its loop, or has
    settled. [AwaitNext r] holds the [{ value, done }] that
    [iterable.next()] handed out; [AwaitHandler err item r] holds what the
    handler's promise settles with. *)
Inductive Worker : Type :=
| AwaitNext (r : option T)
| AwaitFn (item : T)
| AwaitHandler (err : E) (item : T) (r : Settled Action E)
| Finished
| Failed (e : E).

(** What the closure [worker] captures and never changes. *)
Record Env : Type := mkEnv {
  env_items : list T;
  env_fn : IteratorFn;
  env_handler : option ErrorHandler;
}.

(** The mutable locals of [promisePool]. The last four fields are a
    history kept for stating properties; the program never reads them:
    [pulls] lists (worker, position) for every item [next()] handed out,
    [invoked] the items [iteratorFn] was called on, [handlerCalls] the
    handler invocations and [handlerDone] those that returned. *)
Record State : Type := mkState {
  cursor : nat;
  results : list R;
  errors : list E;
  failedItems : list T;
  isAborted : bool;
  workers : list Worker;
  pulls : list (nat * nat);
  invoked : list T;
  handlerCalls : list (E * T);
  handlerDone : list (E * T);
}.

Definition init : State := mkState 0 [] [] [] false [] [] [] [] [].

Definition set_workers (ws : list Worker) (st : State) : State :=
  mkState (cursor st) (results st) (errors st) (failedItems st) (isAborted st)
    ws (pulls st) (invoked st) (handlerCalls st) (handlerDone st).

Definition advance (w : nat) (st : State) : State :=
  mkState (S (cursor st)) (results st) (errors st) (failedItems st)
    (isAborted st) (workers st) (pulls st ++ [(w, cursor st)]) (invoked st)
    (handlerCalls st) (handlerDone st).

Definition push_result (res : R) (st : State) : State :=
  mkState (cursor st) (results st ++ [res]) (errors st) (failedItems st)
    (isAborted st) (workers st) (pulls st) (invoked st) (handlerCalls st)
    (handlerDone st).

Definition push_failure (err : E) (item : T) (st : State) : State :=
  mkState (cursor st) (results st) (errors st ++ [err])
    (failedItems st ++ [item]) (isAborted st) (workers st) (pulls st)
    (invoked st) (handlerCalls st) (handlerDone st).

Definition set_aborted (st : State) : State :=
  mkState (cursor st) (results st) (errors st) (failedItems st) true
    (workers st) (pulls st) (invoked st) (handlerCalls st) (handlerDone st).

Definition log_invoked (item : T) (st : State) : State :=
  mkState (cursor st) (results st) (errors st) (failedItems st) (isAborted st)
    (workers st) (pulls st) (invoked st ++ [item]) (handlerCalls st)
    (handlerDone st).

Definition log_handlerCall (err : E) (item : T) (st : State) : State :=
  mkState (cursor st) (results st) (errors st) (failedItems st) (isAborted st)
    (workers st) (pulls st) (invoked st) (handlerCalls st ++ [(err, item)])
    (handlerDone st).

Definition log_handlerDone (err : E) (item : T) (st : State) : State :=
  mkState (cursor st) (results st) (errors st) (failedItems st) (isAborted st)
    (workers st) (pulls st) (invoked st) (handlerCalls st)
    (handlerDone st ++ [(err, item)]).

(** *** The worker loop, one segment between two [await]s at a time *)

(** [iterable.next()] on the shared iterator, called by worker [w]. *)
Definition next (env : Env) (w : nat) (st : State) : State * option T :=
  match env_items env !! cursor st with
  | Some x => (advance w st, Some x)
  | None => (st, None)
  end.

(** [while (!isAborted) { ... await iterable.next()]: the loop head up to
    its first suspension. *)
Definition loop_head (env : Env) (w : nat) (st : State) : State * Worker :=
  if isAborted st then (st, Finished)
  else let '(st', r) := next env w st in (st', AwaitNext r).

(** Resuming worker [w] from the [await] it is suspended at, up to its next
    suspension. A settled worker is not resumed. *)
Definition resume (env : Env) (w : nat) (k : Worker) (st : State)
  : option (State * Worker) :=
  match k with
  | AwaitNext None => Some (st, Finished)
  | AwaitNext (Some item) =>
      if isAborted st then Some (st, Finished)
      else Some (log_invoked item st, AwaitFn item)
  | AwaitFn item =>
      match env_fn env item with
      | Fulfilled res =>
          Some (loop_head env w
                  (if isAborted st then st else push_result res st))
      | Rejected err =>
          let st1 := push_failure err item st in
          match env_handler env with
          | Some h =>
              Some (log_handlerCall err item st1,
                    AwaitHandler err item (h err item))
          | None => Some (loop_head env w st1)
          end
      end
  | AwaitHandler err item (Fulfilled action) =>
      let st1 := log_handlerDone err item st in
      Some (loop_head env w
              (if isStopSignal action then set_aborted st1 else st1))
  | AwaitHandler err item (Rejected e) => Some (st, Failed e)
  | Finished | Failed _ => None
  end.

(** One step of the event loop: worker [w] is resumed. *)
Definition step (env : Env) (w : nat) (st : State) : option State :=
  match workers st !! w with
  | Some k =>
      match resume env w k st with
      | Some (st', k') => Some (set_workers (<[w := k']> (workers st')) st')
      | None => None
      end
  | None => None
  end.

(** [worker()] called by [Array.from]: the new worker runs to its first
    [await] before the next one is created. *)
Definition spawn (env : Env) (st : State) : State :=
  let '(st', k) := loop_head env (length (workers st)) st in
  set_workers (workers st' ++ [k]) st'.

Definition launch (env : Env) (n : nat) : State :=
  Nat.iter n (spawn env) init.

(** The states an execution can be in once the workers are launched. *)
Inductive reachable (env : Env) (n : nat) : State → Prop :=
| reach_launch : reachable env n (launch env n)
| reach_step st w st' :
    reachable env n st → step env w st = Some st' → reachable env n st'.

(** An execution: the schedule names the worker resumed at each step, and
    every one of them must be resumable. *)
Fixpoint run (env : Env) (sched : list nat) (st : State) : option State :=
  match sched with
  | [] => Some st
  | w :: sched' =>
      match step env w st with
      | Some st' => run env sched' st'
      | None => None
      end
  end.

(** *** What the caller sees *)

Record Outcome : Type := mkOutcome {
  out_results : list R;
  out_errors : list E;
  out_failedItems : list T;
  stoppedPrematurely : bool;
}.

Definition outcome (st : State) : Outcome :=
  mkOutcome (results st) (errors st) (failedItems st) (isAborted st).

Definition isFinished (k : Worker) : bool :=
  match k with Finished => true | _ => false end.

Definition isSettled (k : Worker) : bool :=
  match k with Finished | Failed _ => true | _ => false end.

(** [await Promise.all(workers)] resumes once every worker is fulfilled;
    the call then returns the outcome. *)
Definition returns (st : State) (o : Outcome) : Prop :=
  forallb isFinished (workers st) = true ∧ o = outcome st.

(** [Promise.all] rejects, and the call with it, once a worker is
    rejected. *)
Definition rejects (st : State) (e : E) : Prop :=
  Failed e ∈ workers st.

(** *** The entry point *)

Inductive CallError : Type :=
| AssertionError (msg : string)
| TypeError
| RangeError.

(** A call either throws before any worker exists, or runs the machine
    from the launched state. *)
Inductive Call : Type :=
| Throws (e : CallError)
| Runs (env : Env) (n : nat).

Context (chars : string → list T).

(** [input[Symbol.asyncIterator]] or [input[Symbol.iterator]], called:
    a TypeError when neither exists. *)
Definition getIterator (input : InputArg) : option (list T) :=
  match input with
  | VIter it => Some it
  | VStr s => Some (chars s)
  | _ => None
  end.

(** [if (errorHandler)]: after validation a truthy handler is callable. *)
Definition handlerOf (errorHandler : HandlerArg) : option ErrorHandler :=
  match errorHandler with
  | VFun h => Some h
  | _ => None
  end.

Definition promisePool (input : InputArg) (iteratorFn : FnArg)
    (concurrency : ConcurrencyArg) (errorHandler : HandlerArg) : Call :=
  let concurrency :=
    match concurrency with VUndefined => VNum (Fin 2) | c => c end in
  match _validateInput input iteratorFn concurrency errorHandler with
  | Rejected msg => Throws (AssertionError msg)
  | Fulfilled _ =>
      match getIterator input, iteratorFn, concurrency with
      | Some items, VFun f, VNum c =>
          match arrayFromLength c with
          | Some n => Runs (mkEnv items f (handlerOf errorHandler)) n
          | None => Throws RangeError
          end
      | _, _, _ => Throws TypeError
      end
  end.

End Pool.
Arguments Worker : clear implicits.
Arguments Env : clear implicits.
Arguments State : clear implicits.
Arguments Outcome : clear implicits.
Arguments Call : clear implicits.
End Pool.

(** ** The options-object version: validation that reports in the outcome *)

Module PoolOptions.
Section PoolOptions.
Context {T R E : Type}.

(** [x <= 0] on numbers. *)
Definition le0 (x : JsNum) : bool :=
  match x with
  | NaN | PosInf => false
  | NegInf => true
  | Fin q => Qle_bool q 0
  end.

(** Returns the message of the [Error], or [None] for [null]. *)
Definition _validateInput (input : @Pool.InputArg T)
    (iteratorFn : @Pool.FnArg T R E) (concurrency : Pool.ConcurrencyArg)
    (errorHandler : @Pool.HandlerArg T E) : option string :=
  if negb (truthy input) then Some "input is required"
  else if negb (String.eqb (typeof iteratorFn) "function")
  then Some "iteratorFn must be a function"
  else if negb (String.eqb (typeof concurrency) "number") ||
          match concurrency with VNum x => le0 x | _ => true end
  then Some "concurrency must be a positive number"
  else if truthy errorHandler &&
          negb (String.eqb (typeof errorHandler) "function")
  then Some "errorHandler must be a function"
  else None.

(** The [errors] array of this version holds [new Error(msg)] for a
    validation failure ([inl msg]) next to the thrown values ([inr e]). *)
Inductive Call : Type :=
| Returns (o : Pool.Outcome T R (string + E))
| Throws (e : Pool.CallError)
| Runs (env : Pool.Env T R E) (n : nat).

Context (chars : string → list T).

Definition promisePool (input : @Pool.InputArg T)
    (iteratorFn : @Pool.FnArg T R E) (concurrency : Pool.ConcurrencyArg)
    (errorHandler : @Pool.HandlerArg T E) : Call :=
  let concurrency :=
    match concurrency with VUndefined => VNum (Fin 2) | c => c end in
  match _validateInput input iteratorFn concurrency errorHandler with
  | Some validationError =>
      Returns (Pool.mkOutcome [] [inl validationError] [] false)
  | None =>
      match Pool.getIterator chars input, iteratorFn, concurrency with
      | Some items, VFun f, VNum c =>
          match arrayFromLength c with
          | Some n =>
              Runs (Pool.mkEnv items f (Pool.handlerOf errorHandler)) n
          | None => Throws Pool.RangeError
          end
      | _, _, _ => Throws Pool.TypeError
      end
  end.

End PoolOptions.
Arguments Call : clear implicits.
End PoolOptions.

Import Pool.

(** ** Observations on workers and states, used to state the properties *)

Section Observers.
Context {T R E : Type}.

(** An item the worker has pulled whose outcome is not yet recorded. *)
Definition inFlight (k : Worker T E) : nat :=
  match k with
  | AwaitNext (Some _) | AwaitFn _ => 1
  | _ => 0
  end.

(** The item a worker has pulled and not yet handed to [iteratorFn]. *)
Definition pendingNext (k : Worker T E) : list T :=
  match k with
  | AwaitNext (Some item) => [item]
  | _ => []
  end.

(** What the [iteratorFn] call the worker awaits settles with. *)
Definition pendingOutcome (env : Env T R E) (k : Worker T E)
  : list (Settled R E) :=
  match k with
  | AwaitFn item => [env_fn env item]
  | _ => []
  end.

(** The handler invocation the worker awaits. *)
Definition pendingHandler (k : Worker T E) : list (E * T) :=
  match k with
  | AwaitHandler err item _ => [(err, item)]
  | _ => []
  end.

(** The handler invocation that rejected a worker is lost with it. *)
Definition failedCount (k : Worker T E) : nat :=
  match k with
  | Failed _ => 1
  | _ => 0
  end.

(** A worker that has left its loop for good or is about to. *)
Definition parked (k : Worker T E) : bool :=
  match k with
  | Finished | AwaitNext None => true
  | _ => false
  end.

(** How many resumptions a worker can still take without pulling. *)
Definition rank (k : Worker T E) : nat :=
  match k with
  | AwaitNext (Some _) => 4
  | AwaitFn _ => 3
  | AwaitHandler _ _ _ => 2
  | AwaitNext None => 1
  | Finished | Failed _ => 0
  end.

Definition measure (env : Env T R E) (st : State T R E) : nat :=
  4 * (length (env_items env) - cursor st) + sum_list (rank <$> workers st).

(** [iteratorFn(item)] fails. *)
Definition throws (env : Env T R E) (item : T) : bool :=
  match env_fn env item with
  | Rejected _ => true
  | Fulfilled _ => false
  end.

(** The worker's operation is in flight and will fail. *)
Definition pendingThrow (env : Env T R E) (k : Worker T E) : list T :=
  match k with
  | AwaitFn item => if throws env item then [item] else []
  | _ => []
  end.

(** No handler, or one that never returns the stop signal. *)
Definition neverStops (env : Env T R E) : Prop :=
  ∀ h err item action,
    env_handler env = Some h → h err item = Fulfilled action →
    isStopSignal action = false.

(** No handler, or one that never throws. *)
Definition neverThrows (env : Env T R E) : Prop :=
  ∀ h err item e, env_handler env = Some h → h err item ≠ Rejected e.

(** The source is exhausted. *)
Definition exhausted (env : Env T R E) (st : State T R E) : Prop :=
  length (env_items env) ≤ cursor st.

(** Every worker has settled: nothing can be resumed any more. *)
Definition terminal (st : State T R E) : bool :=
  forallb isSettled (workers st).

(** A worker awaits a handler only if there is one, and holds what that
    handler gives; a rejected worker was rejected by the handler. *)
Definition fromHandler (env : Env T R E) (k : Worker T E) : Prop :=
  match k with
  | AwaitHandler err item r =>
      ∃ h, env_handler env = Some h ∧ r = h err item
  | Failed e =>
      ∃ h err item, env_handler env = Some h ∧ h err item = Rejected e
  | _ => True
  end.

(** An item the worker may have pulled beyond those recorded: the one it
    holds, or the one it dropped or suppressed when it left its loop. *)
Definition ahead (k : Worker T E) : nat :=
  match k with
  | AwaitNext (Some _) | AwaitFn _ | Finished => 1
  | _ => 0
  end.

(** A call of [iteratorFn] the worker may have made beyond those recorded:
    the one it awaits, or the success it suppressed when it left its loop. *)
Definition started (k : Worker T E) : nat :=
  match k with
  | AwaitFn _ | Finished => 1
  | _ => 0
  end.

(** The resumptions a worker can still take once [isAborted] is set. *)
Definition windDown (k : Worker T E) : nat :=
  match k with
  | AwaitFn _ => 2
  | AwaitNext _ | AwaitHandler _ _ _ => 1
  | Finished | Failed _ => 0
  end.

(** The resumptions left: three per item not yet pulled (the item, its
    operation, its handler), and what the workers hold. *)
Definition resumptionsLeft (env : Env T R E) (st : State T R E) : nat :=
  3 * (length (env_items env) - cursor st) + sum_list (rank <$> workers st).

(** The results of the items on which [iteratorFn] succeeds, in order. *)
Definition successes (env : Env T R E) (items : list T) : list R :=
  omap (λ item, match env_fn env item with
                | Fulfilled res => Some res
                | Rejected _ => None
                end) items.

(** The errors of the items on which [iteratorFn] fails, in order. *)
Definition failures (env : Env T R E) (items : list T) : list E :=
  omap (λ item, match env_fn env item with
                | Rejected err => Some err
                | Fulfilled _ => None
                end) items.

(** The handler hands back the stop signal for this failure. *)
Definition stopsOn (env : Env T R E) (err : E) (item : T) : Prop :=
  ∃ h action,
    env_handler env = Some h ∧ h err item = Fulfilled action ∧
    isStopSignal action = true.

End Observers.

(** ** The wording of the specification for the arguments *)

Section SpecWords.
Context {Fn It : Type}.

(** "is callable" *)
Definition isCallable (v : JsVal Fn It) : Prop := ∃ f, v = VFun f.

(** "is a positive finite integer" *)
Definition isPositiveFiniteInteger (v : JsVal Fn It) : bool :=
  match v with
  | VNum (Fin q) =>
      (0 <? Qnum q)%Z && (Qnum q mod Zpos (Qden q) =? 0)%Z
  | _ => false
  end.

(** "a positive number", the wording of the code's own message: of type
    number and greater than zero. *)
Definition isPositiveNumber (v : JsVal Fn It) : bool :=
  match v with
  | VNum x => gt0 x
  | _ => false
  end.

(** Not a number, or a number that is zero or negative. *)
Definition isNonPositive (v : JsVal Fn It) : bool :=
  match v with
  | VNum x => PoolOptions.le0 x
  | _ => true
  end.

End SpecWords.

(** The parameter a validation message is about is indeed invalid. *)
Definition identifies {T R E : Type} (msg : string) (input : @InputArg T)
    (iteratorFn : @FnArg T R E) (concurrency : ConcurrencyArg)
    (errorHandler : @HandlerArg T E) : Prop :=
  (msg = "input is required" ∧ truthy input = false) ∨
  (msg = "iteratorFn must be a function" ∧ ¬ isCallable iteratorFn) ∨
  (msg = "concurrency must be a positive number" ∧
   concurrency ≠ VUndefined ∧ isPositiveNumber concurrency = false) ∨
  (msg = "errorHandler must be a function" ∧ ¬ isCallable errorHandler).

(** ** The runs of the test suite *)

Module Tests.

(** A value of the mixed array [[1, 'error', 3]]. *)
Definition Item : Type := (Z + string)%type.

(** [async (item) => { if (typeof item === 'string') throw new Error('Boom');
    return item; }], an error being its message. *)
Definition boomTask (item : Item) : Settled Item string :=
  match item with
  | inr _ => Rejected "Boom"
  | inl _ => Fulfilled item
  end.

(** "should collect errors and failed items": no handler. *)
Definition boomEnv : Env Item Item string :=
  mkEnv [inl 1%Z; inr "error"; inl 3%Z] boomTask None.

(** "should stop execution when POOL_STOP_SIGNAL is returned":
    [async () => { callCount++; throw new Error('Stop'); }] and
    [() => POOL_STOP_SIGNAL] over [[1, 2, 3]]. *)
Definition stopTask (item : Z) : Settled Z string := Rejected "Stop".
Definition stopHandler (err : string) (item : Z) : Settled Action string :=
  Fulfilled POOL_STOP_SIGNAL.
Definition stopEnv : Env Z Z string :=
  mkEnv [1%Z; 2%Z; 3%Z] stopTask (Some stopHandler).

(** "should support async error handlers": the handler resolves to
    [undefined] once its timer has fired. *)
Definition waitHandler (err : string) (item : Z) : Settled Action string :=
  Fulfilled VUndefined.
Definition waitEnv : Env Z Z string :=
  mkEnv [1%Z] stopTask (Some waitHandler).

(** The mixed input with a failure first and a handler that stops the
    pool on it, as in the README's early-stop example. *)
Definition boomStopEnv : Env Item Item string :=
  mkEnv [inr "error"; inl 3%Z] boomTask
    (Some (λ _ _, Fulfilled POOL_STOP_SIGNAL)).

(** The demonstration script: [testAray] is 1..9;
    [testFn] throws [new Error(`Error on number ${num}`)] on the multiples
    of 3 and returns [`Resulted on: < ${num * 2} >`] otherwise; the handler
    returns the signal when the item is 5 and nothing otherwise; five
    workers. *)
Definition testAray : list Z := (λ i, Z.of_nat i + 1)%Z <$> seq 0 9.
Definition testFn (num : Z) : Settled string string :=
  if (Z.rem num 3 =? 0)%Z
  then Rejected ("Error on number " +:+ pretty num)
  else Fulfilled ("Resulted on: < " +:+ pretty (num * 2)%Z +:+ " >").
Definition testHandler (err : string) (item : Z) : Settled Action string :=
  if (item =? 5)%Z then Fulfilled POOL_STOP_SIGNAL else Fulfilled VUndefined.
Definition testEnv : Env Z string string :=
  mkEnv testAray testFn (Some testHandler).

(** "should process all items successfully (Happy Path)". *)
Definition happyEnv : Env Z Z string :=
  mkEnv [1%Z; 2%Z; 3%Z] (λ n, Fulfilled (n * 2)%Z) None.

(** "should handle empty input". *)
Definition emptyEnv : Env Z Z string := mkEnv [] (λ i, Fulfilled i) None.

(** The mixed input with a failure first and a handler that throws the
    error on. *)
Definition throwEnv : Env Item Item string :=
  mkEnv [inr "error"; inl 3%Z] boomTask (Some (λ err _, Rejected err)).

(** The state an execution of the schedule ends in. *)
Definition after {T R E} (env : Env T R E) (n : nat) (sched : list nat)
  : State T R E :=
  default init (run env sched (launch env n)).

(** The error run with the default two workers, to its return. *)
Definition boomSchedule : list nat := [0; 1; 0; 1; 0; 1; 0; 0].

(** Strings are not used as inputs in these runs. *)
Definition noChars {T} (s : string) : list T := [].

End Tests.

(** ** Lists of workers under in-place update *)

Section WorkerLists.
Context {A B : Type}.

Lemma sum_insert (f : A → nat) (l : list A) (i : nat) (x y : A) :
  l !! i = Some x →
  sum_list (f <$> <[i := y]> l) + f x = sum_list (f <$> l) + f y.
Proof.
  revert i. induction l as [|a l IH]; intros [|i] Hi; simplify_eq/=.
  - lia.
  - specialize (IH _ Hi). lia.
Qed.

Lemma bind_insert (f : A → list B) (l : list A) (i : nat) (x y : A) :
  l !! i = Some x →
  ∃ rest, l ≫= f ≡ₚ f x ++ rest ∧ <[i := y]> l ≫= f ≡ₚ f y ++ rest.
Proof.
  revert i. induction l as [|a l IH]; intros [|i] Hi; simplify_eq/=.
  - by exists (l ≫= f).
  - destruct (IH _ Hi) as (rest & Hold & Hnew). exists (f a ++ rest).
    rewrite Hold, Hnew. split; solve_Permutation.
Qed.

Lemma Forall_insert_lookup (P : A → Prop) (l : list A) (i : nat) (y : A) :
  Forall P l → P y → Forall P (<[i := y]> l).
Proof.
  intros Hl Hy. destruct (decide (i < length l)) as [Hlt|Hge].
  - by apply Forall_insert.
  - rewrite list_insert_ge; [done | lia].
Qed.

Lemma forallb_false_lookup (f : A → bool) (l : list A) :
  forallb f l = false → ∃ i x, l !! i = Some x ∧ f x = false.
Proof.
  induction l as [|a l IH]; [done|]. cbn.
  destruct (f a) eqn:Ha; cbn.
  - intros Hl. destruct (IH Hl) as (i & x & Hi & Hx). by exists (S i), x.
  - intros _. by exists 0, a.
Qed.

Lemma NoDup_snd_inj (l : list (A * B)) (a a' : A) (b : B) :
  NoDup l.*2 → (a, b) ∈ l → (a', b) ∈ l → a = a'.
Proof.
  induction l as [|[x y] l IH]; cbn; intros Hnd Ha Ha'.
  - by apply elem_of_nil in Ha.
  - apply NoDup_cons in Hnd as [Hy Hnd].
    apply elem_of_cons in Ha as [Ha|Ha], Ha' as [Ha'|Ha']; simplify_eq.
    + done.
    + destruct Hy. apply list_elem_of_fmap.
      eexists (_, _). split; [|eassumption]. done.
    + destruct Hy. apply list_elem_of_fmap.
      eexists (_, _). split; [|eassumption]. done.
    + by apply IH.
Qed.

End WorkerLists.

(** ** The launched state and the shape of a step *)

Section Machine.
Context {T R E : Type} (env : Env T R E).

(** After [Array.from] has called [worker] [n] times, worker [i] holds
    what [next()] gave for position [i]. *)
Lemma launch_spec (n : nat) :
  launch env n =
  mkState (n `min` length (env_items env)) [] [] [] false
    ((λ i, AwaitNext (env_items env !! i)) <$> seq 0 n)
    ((λ i, (i, i)) <$> seq 0 (n `min` length (env_items env))) [] [] [].
Proof.
  induction n as [|n IH]; [done|].
  change (launch env (S n)) with (spawn env (launch env n)).
  rewrite IH. clear IH.
  destruct (decide (n < length (env_items env))) as [Hlt|Hge].
  - rewrite (Nat.min_l n), (Nat.min_l (S n)) by lia.
    destruct (lookup_lt_is_Some_2 (env_items env) n Hlt) as [x Hx].
    unfold spawn, loop_head, next. cbn [cursor isAborted workers].
    rewrite Hx. cbn [advance set_workers cursor results errors failedItems
      isAborted workers pulls invoked handlerCalls handlerDone].
    rewrite length_fmap, length_seq, !seq_S, !fmap_app. cbn.
    by rewrite Hx.
  - rewrite (Nat.min_r n), (Nat.min_r (S n)) by lia.
    unfold spawn, loop_head, next. cbn [cursor isAborted workers].
    rewrite (lookup_ge_None_2 (env_items env) (length (env_items env)))
      by lia.
    cbn [advance set_workers cursor results errors failedItems
      isAborted workers pulls invoked handlerCalls handlerDone].
    rewrite !seq_S, !fmap_app. cbn.
    by rewrite (lookup_ge_None_2 (env_items env) n) by lia.
Qed.

Lemma loop_head_workers w (st st' : State T R E) k :
  loop_head env w st = (st', k) → workers st' = workers st.
Proof.
  unfold loop_head, next. intros H. repeat case_match; by simplify_eq/=.
Qed.

Lemma resume_workers w k (st st' : State T R E) k' :
  resume env w k st = Some (st', k') → workers st' = workers st.
Proof.
  destruct k as [[item|]|item|err item [action|e]| |e]; cbn; intros H;
    repeat case_match; simplify_eq/=; try done;
    match goal with
    | H : loop_head _ _ _ = _ |- _ => by rewrite (loop_head_workers _ _ _ _ H)
    | _ => idtac
    end.
Qed.

(** A step resumes the worker at [w] from its suspension [k] and leaves it
    at [k']; no other worker changes. *)
Lemma step_inv w (st st' : State T R E) :
  step env w st = Some st' →
  ∃ k st1 k',
    workers st !! w = Some k ∧
    resume env w k st = Some (st1, k') ∧
    st' = set_workers (<[w := k']> (workers st)) st1.
Proof.
  unfold step. intros H.
  destruct (workers st !! w) as [k|] eqn:Hk; [|done].
  destruct (resume env w k st) as [[st1 k']|] eqn:Hr; [|done].
  simplify_eq. exists k, st1, k'.
  by rewrite (resume_workers _ _ _ _ _ Hr).
Qed.

Lemma reachable_workers_length n (st : State T R E) :
  reachable env n st → length (workers st) = n.
Proof.
  induction 1 as [|st w st' _ IH Hstep].
  - rewrite launch_spec. cbn. by rewrite length_fmap, length_seq.
  - apply step_inv in Hstep as (k & st1 & k' & Hk & Hr & ->).
    cbn. by rewrite length_insert.
Qed.

End Machine.

(** Opens a step [H : step env w st = Some st'] into the worker that is
    resumed and its resumption. *)
Ltac step_open H :=
  let k := fresh "k" in
  let st1 := fresh "st1" in
  let k' := fresh "k'" in
  let Hk := fresh "Hk" in
  let Hr := fresh "Hr" in
  apply step_inv in H as (k & st1 & k' & Hk & Hr & ->).

(** Splits an opened resumption into the paths through [worker]. *)
Ltac resume_cases :=
  match goal with
  | Hr : resume _ _ ?k _ = Some _ |- _ =>
      destruct k as [[?item|]|?item|?err ?item [?action|?e]| |?e];
      cbn in Hr; unfold loop_head, next in Hr;
      repeat case_match; simplify_eq/=
  end.

Ltac step_cases H := step_open H; resume_cases.

(** Instantiates a lemma on [<[w := k']> ws] (such as [sum_insert]) at the
    worker that the step in the goal has just updated. *)
Ltac use_insert lem :=
  match goal with
  | Hk : workers _ !! _ = Some _ |- context [<[_ := ?k']> _] =>
      let Hs := fresh "Hs" in
      pose proof (lem _ _ _ k' Hk) as Hs; cbn in Hs
  end.

(** ** Invariants of the reachable states *)

Section Invariants.
Context {T R E : Type} (env : Env T R E) (n : nat).
Implicit Types st : State T R E.
Local Arguments Nat.min : simpl never.
Local Arguments Nat.sub : simpl never.

(** [errors] and [failedItems] grow together, by one failure at a time. *)
Lemma inv_pairing st :
  reachable env n st →
  Forall2 (λ err item, env_fn env item = Rejected err)
    (errors st) (failedItems st).
Proof.
  induction 1 as [|st w st' _ IH Hstep].
  - rewrite launch_spec. constructor.
  - step_cases Hstep; try done;
      apply Forall2_app; try done; by repeat constructor.
Qed.

(** Every pulled item is in [results], in [errors], in flight, or was
    dropped after an abort. *)
Lemma inv_account st :
  reachable env n st →
  cursor st ≤ length (env_items env) ∧
  length (results st) + length (errors st)
    + sum_list (inFlight <$> workers st) ≤ cursor st ∧
  (isAborted st = false →
   length (results st) + length (errors st)
     + sum_list (inFlight <$> workers st) = cursor st).
Proof.
  induction 1 as [|st w st' _ IH Hstep].
  - rewrite launch_spec. cbn.
    assert (∀ m len,
      sum_list (inFlight <$>
        ((λ i, AwaitNext (env_items env !! i) : Worker T E) <$> seq m len))
      = (m + len) `min` length (env_items env) - m `min` length (env_items env))
      as Hsum.
    { intros m len. revert m. induction len as [|len IHl]; intros m; cbn.
      - rewrite Nat.add_0_r. lia.
      - rewrite IHl. destruct (env_items env !! m) as [x|] eqn:Hx;
          cbn [inFlight].
        + apply lookup_lt_Some in Hx. lia.
        + apply lookup_ge_None in Hx. lia. }
    rewrite Hsum. lia.
  - destruct IH as (IH1 & IH2 & IH3).
    step_cases Hstep; use_insert (sum_insert (@inFlight T E));
      repeat match goal with
      | H : env_items _ !! _ = _ |- _ =>
          first [apply lookup_lt_Some in H | apply lookup_ge_None in H]
      end;
      rewrite ?length_app; cbn in *;
      try specialize (IH3 eq_refl);
      (split; [lia | split; [lia |]]);
      intros Hna; first [congruence | lia | specialize (IH3 Hna); lia].
Qed.

(** Whatever a worker awaits from the handler is what the handler gives. *)
Lemma inv_fromHandler st :
  reachable env n st → Forall (fromHandler env) (workers st).
Proof.
  induction 1 as [|st w st' _ IH Hstep].
  - rewrite launch_spec. cbn. apply Forall_fmap, Forall_true. by intros i.
  - pose proof IH as IH'. rewrite Forall_lookup in IH'.
    step_cases Hstep; specialize (IH' _ _ Hk);
      apply Forall_insert_lookup; cbn in *; try done; eauto;
      destruct IH' as (h & Hh & Hr); eauto.
Qed.

(** [isAborted] is written only when the handler hands back the signal. *)
Lemma inv_noabort st :
  neverStops env → reachable env n st → isAborted st = false.
Proof.
  intros Hns. induction 1 as [|st w st' Hreach IH Hstep].
  - by rewrite launch_spec.
  - apply inv_fromHandler in Hreach. rewrite Forall_lookup in Hreach.
    step_cases Hstep; try done; specialize (Hreach _ _ Hk);
      destruct Hreach as (h & Hh & Hr);
      symmetry in Hr; apply (Hns _ _ _ _ Hh) in Hr; congruence.
Qed.

(** A worker leaves its loop only on an abort or an exhausted source. *)
Lemma inv_parked st :
  reachable env n st →
  Forall (λ k, parked k = true → isAborted st = true ∨ exhausted env st)
    (workers st).
Proof.
  unfold exhausted. induction 1 as [|st w st' _ IH Hstep].
  - rewrite launch_spec. cbn. apply Forall_fmap, Forall_seq. intros i Hi.
    cbn. destruct (env_items env !! i) as [x|] eqn:Hx; [done|].
    intros _. right. apply lookup_ge_None in Hx. lia.
  - step_cases Hstep;
      repeat match goal with
      | H : env_items _ !! _ = _ |- _ =>
          first [apply lookup_lt_Some in H | apply lookup_ge_None in H]
      end;
      (apply Forall_insert_lookup;
       [eapply Forall_impl; [exact IH|]; cbn; intros k0 Hk0 Hp;
        destruct (Hk0 Hp) as [?|?]
       | cbn; intros Hp]);
      first [ done | by left | left; congruence | right; lia
            | by apply (proj1 (Forall_lookup _ _) IH _ _ Hk) ].
Qed.

(** The iterator hands out the positions in order, each one once, and only
    to workers that exist. *)
Lemma inv_pulls st :
  reachable env n st →
  (pulls st).*2 = seq 0 (cursor st) ∧ Forall (λ p, p.1 < n) (pulls st).
Proof.
  intros Hreach. pose proof (reachable_workers_length _ _ _ Hreach) as Hlen.
  revert Hlen. induction Hreach as [|st w st' Hreach IH Hstep].
  - intros _. rewrite launch_spec. cbn. rewrite <- list_fmap_compose.
    split; [apply list_fmap_id|].
    apply Forall_fmap, Forall_seq. cbn. lia.
  - pose proof (reachable_workers_length _ _ _ Hreach) as Hlen.
    destruct (IH Hlen) as [IH1 IH2]. intros _.
    step_cases Hstep; apply lookup_lt_Some in Hk;
      rewrite ?fmap_app, ?cons_seq, ?seq_S, ?IH1; cbn;
      (split; [done|]); rewrite ?Forall_app, ?Forall_singleton; cbn;
      try done; (split; [done | lia]).
Qed.

(** Every handler invocation has returned, is awaited, or rejected its
    worker. *)
Lemma inv_handlers st :
  reachable env n st →
  ∃ lost,
    handlerCalls st ≡ₚ
      handlerDone st ++ (workers st ≫= pendingHandler) ++ lost ∧
    length lost = sum_list (failedCount <$> workers st).
Proof.
  induction 1 as [|st w st' _ IH Hstep].
  - exists []. rewrite launch_spec. cbn. split.
    + rewrite app_nil_r. induction (seq 0 n) as [|i l IHl]; [done|].
      cbn. by destruct (env_items env !! i).
    + induction (seq 0 n) as [|i l IHl]; [done|]. cbn. by rewrite <- IHl.
  - destruct IH as (lost & IH1 & IH2).
    step_cases Hstep;
      use_insert (sum_insert (@failedCount T E));
      match goal with
      | Hk : workers _ !! _ = Some _ |- context [<[_ := ?k']> _] =>
          destruct (bind_insert pendingHandler _ _ _ k' Hk)
            as (rest & Hold & Hnew)
      end;
      rewrite Hold in IH1; cbn in Hold, Hnew, IH1;
      match goal with
      | |- context [<[_ := Failed _]> _] => exists ((err, item) :: lost)
      | _ => exists lost
      end;
      (split; [rewrite Hnew, IH1; cbn; solve_Permutation | cbn; lia]).
Qed.

(** Every pulled item was handed to [iteratorFn], is about to be, or was
    dropped because of an abort. *)
Lemma inv_invoked st :
  reachable env n st →
  ∃ dropped,
    take (cursor st) (env_items env) ≡ₚ
      invoked st ++ (workers st ≫= pendingNext) ++ dropped ∧
    (isAborted st = false → dropped = []).
Proof.
  induction 1 as [|st w st' _ IH Hstep].
  - exists []. rewrite launch_spec. cbn. split; [|done].
    rewrite app_nil_r.
    assert (∀ m len,
      drop m (take (m + len) (env_items env)) =
      ((λ i, AwaitNext (env_items env !! i) : Worker T E) <$> seq m len)
        ≫= pendingNext) as Hgen.
    { intros m len. revert m. induction len as [|len IHl]; intros m.
      - rewrite Nat.add_0_r. cbn.
        apply drop_ge. rewrite length_take. lia.
      - cbn [seq fmap list_fmap mbind list_bind]. rewrite <- IHl.
        replace (m + S len) with (S m + len) by lia.
        destruct (env_items env !! m) as [x|] eqn:Hx; cbn [pendingNext app].
        + erewrite (drop_S _ x m); [done|].
          rewrite lookup_take_lt by lia. done.
        + apply lookup_ge_None in Hx.
          rewrite !drop_ge; [done| |]; rewrite length_take; lia. }
    specialize (Hgen 0 n). rewrite drop_0 in Hgen. rewrite <- Hgen.
    destruct (Nat.min_spec n (length (env_items env))) as [[? ->]|[? ->]];
      [done|].
    by rewrite !take_ge by lia.
  - destruct IH as (dropped & IH1 & IH2).
    step_cases Hstep;
      match goal with
      | Hk : workers _ !! _ = Some _ |- context [<[_ := ?k']> _] =>
          destruct (bind_insert pendingNext _ _ _ k' Hk)
            as (rest & Hold & Hnew)
      end;
      rewrite Hold in IH1; cbn in Hold, Hnew, IH1;
      repeat match goal with
      | H : env_items _ !! _ = Some _ |- _ =>
          rewrite (take_S_r _ _ _ H); clear H
      end;
      match goal with
      | H : isAborted _ = true, Hk : _ !! _ = Some (AwaitNext (Some ?x))
        |- _ => exists (x :: dropped)
      | _ => exists dropped
      end;
      (split; [rewrite Hnew, ?IH1; cbn; solve_Permutation
              | first [done | intros; congruence | eauto]]).
Qed.

(** What the calls of [iteratorFn] settle with is in [results], in
    [errors], still awaited, or a success suppressed after an abort. *)
Lemma inv_outcomes st :
  reachable env n st →
  ∃ suppressed,
    env_fn env <$> invoked st ≡ₚ
      (Fulfilled <$> results st) ++ (Rejected <$> errors st) ++
      (workers st ≫= pendingOutcome env) ++ suppressed ∧
    (isAborted st = false → suppressed = []).
Proof.
  induction 1 as [|st w st' _ IH Hstep].
  - exists []. rewrite launch_spec. cbn. split; [|done].
    induction (seq 0 n) as [|i l IHl]; [done|].
    cbn. by destruct (env_items env !! i).
  - destruct IH as (suppressed & IH1 & IH2).
    step_cases Hstep; try (exfalso; congruence);
      match goal with
      | Hk : workers _ !! _ = Some _ |- context [<[_ := ?k']> _] =>
          destruct (bind_insert (pendingOutcome env) _ _ _ k' Hk)
            as (rest & Hold & Hnew)
      end;
      rewrite Hold in IH1; cbn in Hold, Hnew, IH1;
      repeat match goal with
      | H : env_fn env _ = _ |- _ => rewrite H in *
      end;
      match goal with
      | H : isAborted _ = true, Hfn : env_fn env _ = Fulfilled ?res
        |- _ => exists (Fulfilled res :: suppressed)
      | _ => exists suppressed
      end;
      (split; [rewrite ?fmap_app, Hnew, ?IH1; cbn; solve_Permutation
              | first [done | intros; congruence | eauto]]).
Qed.

(** Every call of [iteratorFn] that fails is in [failedItems] exactly
    once, as soon as it has settled. *)
Lemma inv_failures st :
  reachable env n st →
  List.filter (throws env) (invoked st) ≡ₚ
    failedItems st ++ (workers st ≫= pendingThrow env).
Proof.
  induction 1 as [|st w st' _ IH Hstep].
  - rewrite launch_spec. cbn.
    induction (seq 0 n) as [|i l IHl]; [done|].
    cbn. by destruct (env_items env !! i).
  - step_cases Hstep;
      match goal with
      | Hk : workers _ !! _ = Some _ |- context [<[_ := ?k']> _] =>
          destruct (bind_insert (pendingThrow env) _ _ _ k' Hk)
            as (rest & Hold & Hnew)
      end;
      rewrite Hold in IH; unfold pendingThrow, throws in Hold, Hnew, IH;
      rewrite ?List.filter_app; cbn; fold (throws env);
      rewrite Hnew, IH; unfold throws;
      repeat match goal with
      | H : env_fn env _ = _ |- _ => rewrite H
      end;
      solve_Permutation.
Qed.

(** The handler is invoked for every failure, with the error and its item. *)
Lemma inv_handlerCalls st :
  reachable env n st →
  handlerCalls st =
    match env_handler env with
    | Some _ => zip (errors st) (failedItems st)
    | None => []
    end.
Proof.
  intros Hreach. pose proof (inv_pairing _ Hreach) as Hlen.
  apply Forall2_length in Hlen. revert Hlen.
  induction Hreach as [|st w st' Hreach IH Hstep].
  - rewrite launch_spec. cbn. by destruct (env_handler env).
  - pose proof (inv_pairing _ Hreach) as Hlen. apply Forall2_length in Hlen.
    specialize (IH Hlen). intros _.
    step_cases Hstep; try done;
      try match goal with
      | H : env_handler env = _ |- _ => rewrite H in *
      end; rewrite ?zip_with_app by done; cbn; by rewrite ?IH.
Qed.

(** Once [isAborted] is set it stays set, and [results] is final. *)
Lemma step_aborted st w st' :
  isAborted st = true → step env w st = Some st' →
  isAborted st' = true ∧ results st' = results st.
Proof.
  intros Hab Hstep. step_cases Hstep; (split; [|done]); congruence.
Qed.

Lemma run_aborted sched st st' :
  isAborted st = true → run env sched st = Some st' →
  isAborted st' = true ∧ results st' = results st.
Proof.
  revert st. induction sched as [|w sched IH]; intros st Hab Hrun;
    simplify_eq/=; [done|].
  destruct (step env w st) as [st1|] eqn:Hstep; [|done].
  destruct (step_aborted _ _ _ Hab Hstep) as [Hab1 Hres1].
  destruct (IH _ Hab1 Hrun) as [Hab' Hres']. split; congruence.
Qed.

(** A worker suspended on a handler that has returned can be resumed, and
    its resumption sets [isAborted] if the value is the signal and leaves
    it as it is otherwise. *)
Lemma handler_resumes st w err item (action : Action) :
  workers st !! w = Some (AwaitHandler err item (Fulfilled action)) →
  ∃ st', step env w st = Some st' ∧
    handlerDone st' = handlerDone st ++ [(err, item)] ∧
    isAborted st' = isStopSignal action || isAborted st.
Proof.
  intros Hw. unfold step. rewrite Hw. cbn. unfold loop_head, next.
  destruct (isStopSignal action); cbn;
    repeat case_match; simplify_eq/=; eexists; (split; [done|]);
    by rewrite ?orb_true_r.
Qed.

(** [isAborted] is set exactly when a handler invocation that has returned
    handed back the signal. *)
Lemma inv_abort_iff st :
  reachable env n st →
  (isAborted st = true ↔
   ∃ err item, (err, item) ∈ handlerDone st ∧ stopsOn env err item).
Proof.
  induction 1 as [|st w st' Hreach IH Hstep].
  - rewrite launch_spec. cbn. split; [done|].
    intros (err & item & Hin & _). by apply elem_of_nil in Hin.
  - apply inv_fromHandler in Hreach. rewrite Forall_lookup in Hreach.
    pose proof Hstep as Hstep'. step_open Hstep'.
    assert ((∃ err item action,
               k = AwaitHandler err item (Fulfilled action)) ∨
            ¬ (∃ err item action,
               k = AwaitHandler err item (Fulfilled action)))
      as [(err & item & action & ->)|Hother].
    { destruct k as [r|item|err item [action|e]| |e]; eauto;
        by right; intros (? & ? & ? & ?). }
    + destruct (handler_resumes _ _ _ _ _ Hk) as (st2 & Hstep2 & Hdone & Hab).
      rewrite Hstep in Hstep2. injection Hstep2 as <-.
      rewrite Hab, Hdone. clear Hr.
      specialize (Hreach _ _ Hk). destruct Hreach as (h & Hh & Hact).
      rewrite orb_true_iff, IH. split.
      * intros [Hsig|(err' & item' & Hin & Hstop)].
        -- exists err, item. split; [apply elem_of_app; right; by left|].
           by exists h, action.
        -- exists err', item'. split; [apply elem_of_app; by left|done].
      * intros (err' & item' & Hin & Hstop).
        apply elem_of_app in Hin as [Hin|Hin]; [right; eauto|].
        apply list_elem_of_singleton in Hin. simplify_eq. left.
        destruct Hstop as (h' & action' & Hh' & Hact' & Hsig). congruence.
    + assert (handlerDone st1 = handlerDone st ∧
              isAborted st1 = isAborted st) as [Hdone Hab].
      { clear IH Hstep Hreach. resume_cases; try done.
        all: destruct Hother; eauto. }
      cbn. by rewrite Hdone, Hab.
Qed.

(** Once a worker is suspended on a handler that handed back the signal,
    every execution that runs until all workers have settled has
    [isAborted] set. *)
Lemma signal_reaches_the_end w err item sched st st' :
  workers st !! w
    = Some (AwaitHandler err item (Fulfilled POOL_STOP_SIGNAL)) →
  run env sched st = Some st' → terminal st' = true → isAborted st' = true.
Proof.
  revert st. induction sched as [|w0 sched IH]; intros st Hw Hrun Hterm;
    simplify_eq/=.
  - unfold terminal in Hterm. rewrite forallb_forall in Hterm.
    apply list_elem_of_lookup_2, list_elem_of_In in Hw.
    by apply Hterm in Hw.
  - destruct (step env w0 st) as [st1|] eqn:Hstep; [|done].
    destruct (decide (w0 = w)) as [->|Hne].
    + destruct (handler_resumes _ _ _ _ _ Hw) as (st2 & Hstep2 & _ & Hab).
      rewrite Hstep in Hstep2. injection Hstep2 as <-.
      by destruct (run_aborted _ _ _ Hab Hrun).
    + eapply IH; [|done|done]. step_open Hstep. cbn.
      by rewrite list_lookup_insert_ne.
Qed.

(** *** The state in which the call returns *)

Lemma returns_terminal st o : returns st o → terminal st = true.
Proof.
  intros [Hfin _]. unfold terminal.
  induction (workers st) as [|k ws IH]; [done|].
  cbn in *. apply andb_prop in Hfin as [Hk Hws].
  rewrite (IH Hws), andb_true_r. by destruct k.
Qed.

Lemma returns_all_finished st o :
  returns st o → Forall (λ k, k = Finished) (workers st).
Proof.
  intros [Hfin _]. induction (workers st) as [|k ws IH]; [done|].
  cbn in Hfin. apply andb_prop in Hfin as [Hk Hws].
  constructor; [by destruct k | by apply IH].
Qed.

Lemma returns_nothing_pending st o :
  returns st o →
  sum_list (inFlight <$> workers st) = 0 ∧
  workers st ≫= pendingThrow env = [] ∧
  workers st ≫= pendingHandler = [] ∧
  sum_list (failedCount <$> workers st) = 0 ∧
  workers st ≫= pendingNext = [] ∧
  workers st ≫= pendingOutcome env = [].
Proof.
  intros Hret. apply returns_all_finished in Hret.
  induction Hret as [|k ws -> _ (IH1 & IH2 & IH3 & IH4 & IH5 & IH6)];
    [done|].
  cbn. by rewrite IH1, IH2, IH3, IH4, IH5, IH6.
Qed.

(** A return without abort and with the source exhausted has every item's
    outcome in [results] or [errors], once each. *)
Lemma returned_outcomes st o :
  reachable env n st → returns st o → isAborted st = false →
  exhausted env st →
  env_fn env <$> env_items env ≡ₚ
    (Fulfilled <$> results st) ++ (Rejected <$> errors st).
Proof.
  intros Hreach Hret Hna Hex. unfold exhausted in Hex.
  destruct (returns_nothing_pending _ _ Hret)
    as (_ & _ & _ & _ & Hnext & Hout).
  destruct (inv_account _ Hreach) as (Hle & _ & _).
  destruct (inv_invoked _ Hreach) as (dropped & Hinv & Hdrop).
  destruct (inv_outcomes _ Hreach) as (suppressed & Hres & Hsup).
  rewrite (Hdrop Hna), Hnext, !app_nil_r, take_ge in Hinv by lia.
  rewrite (Hsup Hna), Hout, !app_nil_r in Hres.
  by rewrite Hinv.
Qed.

Lemma returned_failures st o :
  reachable env n st → returns st o →
  List.filter (throws env) (invoked st) ≡ₚ failedItems st.
Proof.
  intros Hreach Hret. rewrite (inv_failures _ Hreach).
  destruct (returns_nothing_pending _ _ Hret) as (_ & -> & _).
  by rewrite app_nil_r.
Qed.

(** *** Termination *)

Lemma step_measure st w st' :
  reachable env n st → step env w st = Some st' →
  measure env st' < measure env st.
Proof.
  intros Hreach Hstep. destruct (inv_account _ Hreach) as (Hc & _ & _).
  unfold measure. step_cases Hstep; use_insert (sum_insert (@rank T E));
    repeat match goal with
    | H : env_items _ !! _ = _ |- _ =>
        first [apply lookup_lt_Some in H | apply lookup_ge_None in H]
    end; lia.
Qed.

(** A worker that has not settled can be resumed. *)
Lemma progress st w k :
  workers st !! w = Some k → isSettled k = false →
  ∃ st', step env w st = Some st'.
Proof.
  intros Hk Hs. unfold step. rewrite Hk.
  destruct k as [[item|]|item|err item [action|e]| |e]; try done; cbn;
    unfold loop_head, next; repeat case_match; simplify_eq; eauto.
Qed.

Lemma run_reachable sched st st' :
  reachable env n st → run env sched st = Some st' → reachable env n st'.
Proof.
  revert st. induction sched as [|w sched IH]; intros st Hreach Hrun;
    simplify_eq/=; [done|].
  destruct (step env w st) as [st1|] eqn:Hstep; [|done].
  eapply IH; [|done]. by eapply reach_step.
Qed.


(** Every execution can be continued until all workers have settled. *)
Lemma completes st :
  reachable env n st →
  ∃ sched st', run env sched st = Some st' ∧ terminal st' = true.
Proof.
  remember (measure env st) as m eqn:Hm. revert st Hm.
  induction (lt_wf m) as [m _ IH]. intros st -> Hreach.
  destruct (terminal st) eqn:Hterm.
  - by exists [], st.
  - apply forallb_false_lookup in Hterm as (w & k & Hk & Hs).
    destruct (progress st w k Hk Hs) as [st1 Hstep].
    assert (reachable env n st1) as Hreach1 by by eapply reach_step.
    destruct (IH _ (step_measure _ _ _ Hreach Hstep) st1 eq_refl Hreach1)
      as (sched & st' & Hrun & Hdone).
    exists (w :: sched), st'. cbn. by rewrite Hstep.
Qed.

(** With a handler that never throws, no worker is ever rejected, so a
    terminal state is one in which the call returns. *)
Lemma terminal_returns st :
  neverThrows env → reachable env n st → terminal st = true →
  returns st (outcome st).
Proof.
  intros Hnt Hreach Hterm. split; [|done].
  apply inv_fromHandler in Hreach.
  unfold terminal in Hterm. rewrite forallb_forall in Hterm.
  apply forallb_forall. intros k Hin. specialize (Hterm k Hin).
  rewrite List.Forall_forall in Hreach. specialize (Hreach k Hin).
  destruct k; try done. destruct Hreach as (h & err & item & Hh & Hr).
  by destruct (Hnt _ _ _ _ Hh Hr).
Qed.

End Invariants.

(** ** The properties of the specification *)

Section Properties.
Context {T R E : Type} (env : Env T R E) (n : nat).
Implicit Types st : State T R E.


(** C3 (failures are always recorded). A step in which [iteratorFn]
    fails appends that error to [errors] and its item to [failedItems],
    whether or not [isAborted] is set, and no other step touches either
    list; so in every reachable state, aborted or not, and in every
    returned outcome, [errors.length == failedItems.length], the failed
    calls of [iteratorFn] are the entries of [failedItems], and
    [results.length + errors.length] is at most the number of items
    pulled from the source. *)
Theorem failures_recorded st :
  reachable env n st →
  (∀ w st', step env w st = Some st' →
     match workers st !! w with
     | Some (AwaitFn item) =>
         match env_fn env item with
         | Rejected err =>
             errors st' = errors st ++ [err] ∧
             failedItems st' = failedItems st ++ [item]
         | Fulfilled _ =>
             errors st' = errors st ∧ failedItems st' = failedItems st
         end
     | _ => errors st' = errors st ∧ failedItems st' = failedItems st
     end) ∧
  length (errors st) = length (failedItems st) ∧
  length (results st) + length (errors st) ≤ cursor st ∧
  (∀ o, returns st o →
     length (out_errors o) = length (out_failedItems o) ∧
     List.filter (throws env) (invoked st) ≡ₚ out_failedItems o).
Proof.
  intros Hreach. split; [|split; [|split]].
  - intros w st' Hstep. pose proof Hstep as Hstep'.
    step_open Hstep. rewrite Hk. resume_cases; done.
  - pose proof (inv_pairing _ _ _ Hreach) as Hpair.
    by apply Forall2_length in Hpair.
  - destruct (inv_account _ _ _ Hreach) as (_ & Hle & _). lia.
  - intros o [Hfin ->]. cbn. split.
    + pose proof (inv_pairing _ _ _ Hreach) as Hpair.
      by apply Forall2_length in Hpair.
    + by apply (returned_failures env n st (outcome st)).
Qed.

(** C10 (errors and failed items are paired). In every reachable state,
    hence in the returned outcome, [errors[i]] is what [iteratorFn] throws
    on [failedItems[i]], for every index of [errors]. *)
Theorem errors_paired st o :
  reachable env n st → returns st o →
  Forall2 (λ err item, env_fn env item = Rejected err)
    (out_errors o) (out_failedItems o) ∧
  (∀ i err, out_errors o !! i = Some err →
     ∃ item, out_failedItems o !! i = Some item ∧
             env_fn env item = Rejected err).
Proof.
  intros Hreach [_ ->]. cbn.
  pose proof (inv_pairing _ _ _ Hreach) as Hpair. split; [done|].
  intros i err Hi.
  destruct (Forall2_lookup_l _ _ _ _ _ Hpair Hi) as (item & Hitem & Hfn).
  eauto.
Qed.

(** C6 (a success after an abort is suppressed). When the operation of a
    worker completes successfully, its result is appended to [results] if
    [isAborted] is unset at that moment, and [results] is left as it is
    if [isAborted] is set; so from the moment [isAborted] is set, no
    execution adds to [results] any more. *)
Theorem success_suppressed_after_abort :
  (∀ st w item res st',
     workers st !! w = Some (AwaitFn item) →
     env_fn env item = Fulfilled res →
     step env w st = Some st' →
     results st' =
       if isAborted st then results st else results st ++ [res]) ∧
  (∀ st sched st',
     isAborted st = true → run env sched st = Some st' →
     results st' = results st).
Proof.
  split.
  - intros st w item res st' Hw Hfn Hstep. step_open Hstep.
    rewrite Hw in Hk. simplify_eq.
    cbn in Hr. rewrite Hfn in Hr. unfold loop_head, next in Hr.
    repeat case_match; by simplify_eq/=.
  - intros st sched st' Hab Hrun.
    by destruct (run_aborted env _ _ _ Hab Hrun).
Qed.

(** C8 (only the signal aborts). A step sets [isAborted] exactly when it
    resumes a worker from a handler that handed back a value strictly
    equal to [POOL_STOP_SIGNAL]. That resumption always exists: a worker
    suspended on a handler that has returned can be resumed, and its
    resumption sets [isAborted] if the value is [POOL_STOP_SIGNAL] and
    leaves it unchanged for [undefined], [null] and every other value,
    another symbol included. So in every reachable state [isAborted] is set
    if and only if some handler invocation that has returned handed back
    the signal, and once a worker awaits a handler that handed it back
    every return of the call has [stoppedPrematurely] set. With no handler,
    or a handler that never hands back the signal, [isAborted] and so
    [stoppedPrematurely] stay [false]. *)
Theorem abort_only_on_signal :
  (∀ st w st', step env w st = Some st' →
     isAborted st' =
       isAborted st ||
       match workers st !! w with
       | Some (AwaitHandler _ _ (Fulfilled action)) => isStopSignal action
       | _ => false
       end) ∧
  (∀ st w err item (action : Action),
     workers st !! w = Some (AwaitHandler err item (Fulfilled action)) →
     ∃ st', step env w st = Some st' ∧
       handlerDone st' = handlerDone st ++ [(err, item)] ∧
       (action = POOL_STOP_SIGNAL → isAborted st' = true) ∧
       (action ≠ POOL_STOP_SIGNAL → isAborted st' = isAborted st)) ∧
  (∀ action : Action,
     isStopSignal action = true ↔ action = POOL_STOP_SIGNAL) ∧
  (∀ st, reachable env n st →
     (isAborted st = true ↔
      ∃ err item, (err, item) ∈ handlerDone st ∧ stopsOn env err item)) ∧
  (∀ st w err item sched st' o,
     workers st !! w
       = Some (AwaitHandler err item (Fulfilled POOL_STOP_SIGNAL)) →
     run env sched st = Some st' → returns st' o →
     stoppedPrematurely o = true) ∧
  (neverStops env →
   ∀ st, reachable env n st →
     isAborted st = false ∧ stoppedPrematurely (outcome st) = false).
Proof.
  assert (∀ action : Action,
            isStopSignal action = true ↔ action = POOL_STOP_SIGNAL) as Hid.
  { intros action. unfold POOL_STOP_SIGNAL. split.
    - destruct action as [| | | | |id| | |]; cbn; try done.
      intros Hid. apply Nat.eqb_eq in Hid. by subst.
    - by intros ->. }
  split; [|split; [|split; [done|split; [|split]]]].
  - intros st w st' Hstep.
    step_open Hstep. rewrite Hk. resume_cases;
      repeat match goal with
      | H : isAborted _ = _ |- _ => rewrite H
      | H : isStopSignal _ = _ |- _ => rewrite H
      end; cbn; rewrite ?orb_false_r, ?orb_true_r; congruence.
  - intros st w err item action Hw.
    destruct (handler_resumes env st w err item action Hw)
      as (st' & Hstep & Hdone & Hab).
    exists st'. split; [done|]. split; [done|]. rewrite Hab. split.
    + intros Hsig. apply Hid in Hsig. by rewrite Hsig.
    + intros Hsig. destruct (isStopSignal action) eqn:Heq; [|done].
      by apply Hid in Heq.
  - intros st Hreach. by apply (inv_abort_iff env n).
  - intros st w err item sched st' o Hw Hrun Hret.
    pose proof (returns_terminal _ _ Hret) as Hterm.
    destruct Hret as [_ ->]. cbn.
    by apply (signal_reaches_the_end env w err item sched st st').
  - intros Hns st Hreach. cbn. split; by eapply inv_noabort.
Qed.

(** C7 (handlers finish before the call returns). A worker whose
    operation fails calls the handler and stays suspended on it without
    pulling; resumed from the handler, it has the invocation completed and
    only then goes back to the head of its loop; and when the call returns,
    every handler invocation that was started has completed, no worker
    awaits one, and with a handler there was one invocation per recorded
    failure. With a handler that never throws the call does return. *)
Theorem handlers_finish_before_return :
  (∀ st w item err h st',
     workers st !! w = Some (AwaitFn item) →
     env_fn env item = Rejected err → env_handler env = Some h →
     step env w st = Some st' →
     workers st' !! w = Some (AwaitHandler err item (h err item)) ∧
     cursor st' = cursor st ∧
     handlerCalls st' = handlerCalls st ++ [(err, item)]) ∧
  (∀ st w err item action st',
     workers st !! w = Some (AwaitHandler err item (Fulfilled action)) →
     step env w st = Some st' →
     handlerDone st' = handlerDone st ++ [(err, item)]) ∧
  (∀ st o,
     reachable env n st → returns st o →
     handlerCalls st ≡ₚ handlerDone st ∧
     Forall (λ k, pendingHandler k = []) (workers st) ∧
     (∀ h, env_handler env = Some h →
        handlerCalls st = zip (out_errors o) (out_failedItems o))) ∧
  (neverThrows env →
   ∀ st, reachable env n st →
     ∃ sched st', run env sched st = Some st' ∧ returns st' (outcome st')).
Proof.
  split; [|split; [|split]].
  - intros st w item err h st' Hw Hfn Hh Hstep. step_open Hstep.
    rewrite Hw in Hk. simplify_eq. cbn in Hr. rewrite Hfn, Hh in Hr.
    simplify_eq/=. split; [|done].
    apply list_lookup_insert_eq. by eapply lookup_lt_Some.
  - intros st w err item action st' Hw Hstep. step_open Hstep.
    rewrite Hw in Hk. simplify_eq. cbn in Hr. unfold loop_head, next in Hr.
    repeat case_match; by simplify_eq/=.
  - intros st o Hreach [Hfin ->]. cbn.
    assert (returns st (outcome st)) as Hret by done.
    pose proof (returns_all_finished _ _ Hret) as Hall.
    split; [|split].
    + destruct (inv_handlers _ _ _ Hreach) as (lost & Hperm & Hlost).
      destruct (returns_nothing_pending env _ _ Hret)
        as (_ & _ & Hp & Hf & _).
      rewrite Hf in Hlost. apply nil_length_inv in Hlost. subst lost.
      by rewrite Hperm, Hp, !app_nil_r.
    + eapply Forall_impl; [exact Hall|]. by intros k ->.
    + intros h Hh. rewrite (inv_handlerCalls _ _ _ Hreach). by rewrite Hh.
  - intros Hnt st Hreach.
    destruct (completes _ _ _ Hreach) as (sched & st' & Hrun & Hterm).
    pose proof (run_reachable _ _ _ _ _ Hreach Hrun) as Hreach'.
    exists sched, st'. split; [done|]. by apply (terminal_returns env n).
Qed.

(** C9 (exactly-once consumption). In every reachable state each position
    below the cursor was handed out once, to one existing worker, and no
    other position was handed out; the items handed to [iteratorFn] are
    among the items pulled, each at most as often as it was pulled; a step
    taken while [isAborted] is set pulls nothing and calls [iteratorFn] on
    nothing; and a call that returns without abort from at least one worker
    has pulled every position. *)
Theorem exactly_once_consumption st :
  reachable env n st →
  (∀ p, p < cursor st →
     ∃ w, (w, p) ∈ pulls st ∧ ∀ w', (w', p) ∈ pulls st → w' = w) ∧
  (∀ w p, (w, p) ∈ pulls st → p < cursor st ∧ w < n) ∧
  NoDup (pulls st).*2 ∧
  invoked st ⊆+ take (cursor st) (env_items env) ∧
  (∀ w st', isAborted st = true → step env w st = Some st' →
     cursor st' = cursor st ∧ pulls st' = pulls st ∧
     invoked st' = invoked st) ∧
  (∀ o, returns st o → stoppedPrematurely o = false → 0 < n →
     cursor st = length (env_items env)).
Proof.
  intros Hreach. destruct (inv_pulls _ _ _ Hreach) as [Hseq Hws].
  assert (NoDup (pulls st).*2) as Hnd by (rewrite Hseq; apply NoDup_seq).
  assert (∀ w p, (w, p) ∈ pulls st → p < cursor st ∧ w < n) as Hin.
  { intros w p Hp. split.
    - assert (p ∈ (pulls st).*2) as Hp2.
      { apply list_elem_of_fmap. by exists (w, p). }
      rewrite Hseq in Hp2. apply elem_of_seq in Hp2. lia.
    - rewrite List.Forall_forall in Hws.
      apply list_elem_of_In in Hp. by apply Hws in Hp. }
  split; [|split; [done|split; [done|split; [|split]]]].
  - intros p Hp.
    assert (p ∈ (pulls st).*2) as Hp2.
    { rewrite Hseq. apply elem_of_seq. lia. }
    apply list_elem_of_fmap in Hp2 as ([w p'] & -> & Hwp). cbn in *.
    exists w. split; [done|]. intros w' Hw'.
    by apply (NoDup_snd_inj (pulls st) w' w p' Hnd).
  - destruct (inv_invoked _ _ _ Hreach) as (dropped & Hperm & _).
    rewrite Hperm. apply submseteq_inserts_r. done.
  - intros w st' Hab Hstep. step_cases Hstep; try done; congruence.
  - intros o [Hfin ->] Hna Hn. cbn in Hna.
    pose proof (inv_parked _ _ _ Hreach) as Hpark.
    pose proof (reachable_workers_length _ _ _ Hreach) as Hlen.
    destruct (inv_account _ _ _ Hreach) as (Hle & _ & _).
    destruct (workers st) as [|k ws] eqn:Hwks; [cbn in Hlen; lia|].
    apply Forall_cons_1 in Hpark as [Hk _].
    cbn in Hfin. apply andb_prop in Hfin as [Hfin _].
    destruct k; try done.
    destruct (Hk eq_refl) as [Hab|Hex]; [congruence|].
    unfold exhausted in Hex. lia.
Qed.

(** C2 (a failing operation never fails the call). For a call that
    passed validation and launched its workers: the handler is used exactly
    when the argument is truthy; a step in which [iteratorFn] fails records
    the error and the item and leaves the worker unrejected; a worker is
    rejected, and the call with it, only by a throw of the handler;
    whenever the call returns, the [failedItems] of the returned outcome
    are the items on which a call of [iteratorFn] failed, and its [errors]
    are their errors, index by index; and if the handler never throws, no
    execution rejects and each one can be continued until the call returns
    such an outcome. *)
Theorem failures_never_raise chars input iteratorFn concurrency errorHandler :
  promisePool chars input iteratorFn concurrency errorHandler = Runs env n →
  (env_handler env = None ↔ truthy errorHandler = false) ∧
  (∀ st w item err st',
     workers st !! w = Some (AwaitFn item) → env_fn env item = Rejected err →
     step env w st = Some st' →
     errors st' = errors st ++ [err] ∧
     failedItems st' = failedItems st ++ [item] ∧
     ∃ k, workers st' !! w = Some k ∧ ∀ e, k ≠ Failed e) ∧
  (∀ st e, reachable env n st → rejects st e →
     ∃ h err item, env_handler env = Some h ∧ h err item = Rejected e) ∧
  (∀ st o, reachable env n st → returns st o →
     List.filter (throws env) (invoked st) ≡ₚ out_failedItems o ∧
     Forall2 (λ err item, env_fn env item = Rejected err)
       (out_errors o) (out_failedItems o)) ∧
  (neverThrows env →
   ∀ st, reachable env n st →
     (∀ e, ¬ rejects st e) ∧
     ∃ sched st' o,
       run env sched st = Some st' ∧ returns st' o ∧
       List.filter (throws env) (invoked st') ≡ₚ out_failedItems o ∧
       Forall2 (λ err item, env_fn env item = Rejected err)
         (out_errors o) (out_failedItems o)).
Proof.
  intros Hcall. split; [|split; [|split; [|split]]].
  - unfold promisePool, _validateInput in Hcall.
    destruct (truthy input); [|done]. cbn in Hcall.
    destruct (String.eqb (typeof iteratorFn) "function"); [|done].
    cbn in Hcall.
    destruct (_ && _); [|done]. cbn in Hcall.
    destruct (truthy errorHandler) eqn:Htr; cbn in Hcall.
    + destruct errorHandler; try done. cbn in Hcall.
      repeat case_match; by simplify_eq/=.
    + repeat case_match; simplify_eq/=; by destruct errorHandler.
  - intros st w item err st' Hw Hfn Hstep. step_open Hstep.
    rewrite Hw in Hk. simplify_eq. cbn in Hr. rewrite Hfn in Hr.
    assert (w < length (workers st)) as Hlt by by eapply lookup_lt_Some.
    unfold loop_head, next in Hr.
    repeat case_match; simplify_eq/=;
      (split; [done|]; split; [done|]);
      eexists; (split; [by apply list_lookup_insert_eq|done]).
  - intros st e Hreach Hrej. unfold rejects in Hrej.
    pose proof (inv_fromHandler _ _ _ Hreach) as Hfh.
    rewrite Forall_forall in Hfh. by apply Hfh in Hrej.
  - intros st o Hreach Hret. pose proof Hret as [_ ->]. cbn. split.
    + by apply (returned_failures env n st (outcome st)).
    + by apply (inv_pairing env n).
  - intros Hnt st Hreach. split.
    + intros e Hrej. unfold rejects in Hrej.
      pose proof (inv_fromHandler _ _ _ Hreach) as Hfh.
      rewrite Forall_forall in Hfh.
      apply Hfh in Hrej as (h & err & item & Hh & Hr).
      by destruct (Hnt _ _ _ _ Hh Hr).
    + destruct (completes _ _ _ Hreach) as (sched & st' & Hrun & Hterm).
      pose proof (run_reachable _ _ _ _ _ Hreach Hrun) as Hreach'.
      pose proof (terminal_returns _ _ _ Hnt Hreach' Hterm) as Hret.
      exists sched, st', (outcome st'). split; [done|]. split; [done|].
      cbn. split.
      * by apply (returned_failures env n st' (outcome st')).
      * by apply (inv_pairing env n).
Qed.

End Properties.

(** ** Validation of the arguments *)

Section Validation.
Context {T R E : Type} (chars : string → list T).

Lemma typeof_function {Fn It} (v : JsVal Fn It) :
  String.eqb (typeof v) "function" = true ↔ isCallable v.
Proof.
  unfold isCallable. destruct v; cbn; split; try done; eauto;
    by intros [f Hf].
Qed.

Lemma number_and_gt0 {Fn It} (v : JsVal Fn It) :
  String.eqb (typeof v) "number" &&
    match v with VNum x => gt0 x | _ => false end = isPositiveNumber v.
Proof. by destruct v. Qed.

Lemma not_number_or_le0 {Fn It} (v : JsVal Fn It) :
  negb (String.eqb (typeof v) "number") ||
    match v with VNum x => PoolOptions.le0 x | _ => true end
  = isNonPositive v.
Proof. by destruct v. Qed.

Lemma nonPositive_not_positive {Fn It} (v : JsVal Fn It) :
  isNonPositive v = true → isPositiveNumber v = false.
Proof.
  destruct v as [| | |x| | | | |]; try done.
  destruct x as [| | |q]; try done. cbn. by intros ->.
Qed.

Lemma not_positive_nonPositive {Fn It} (v : JsVal Fn It) :
  isPositiveNumber v = false → v ≠ VNum NaN → isNonPositive v = true.
Proof.
  destruct v as [| | |x| | | | |]; try done.
  destruct x as [| | |q]; try done. cbn. by intros ->%negb_false_iff.
Qed.

Lemma truthy_not_function {Fn It} (v : JsVal Fn It) :
  truthy v && negb (String.eqb (typeof v) "function") = true ↔
  truthy v = true ∧ ¬ isCallable v.
Proof.
  rewrite andb_true_iff, negb_true_iff, <- typeof_function.
  destruct (String.eqb _ _); split; intros [? ?]; split; congruence.
Qed.

(** The [assert]s fire in the order of the parameters, each with its own
    message. *)
Lemma _validateInput_spec (input : @InputArg T) (iteratorFn : @FnArg T R E)
    (concurrency : ConcurrencyArg) (errorHandler : @HandlerArg T E) :
  _validateInput input iteratorFn concurrency errorHandler =
    if negb (truthy input) then Rejected "input is required"
    else if negb (String.eqb (typeof iteratorFn) "function")
    then Rejected "iteratorFn must be a function"
    else if negb (isPositiveNumber concurrency)
    then Rejected "concurrency must be a positive number"
    else if truthy errorHandler &&
            negb (String.eqb (typeof errorHandler) "function")
    then Rejected "errorHandler must be a function"
    else Fulfilled ().
Proof.
  unfold _validateInput. rewrite number_and_gt0.
  destruct (truthy input); [|done].
  destruct (String.eqb (typeof iteratorFn) "function"); [|done].
  destruct (isPositiveNumber concurrency); [|done].
  destruct (truthy errorHandler); [|done].
  by destruct (String.eqb (typeof errorHandler) "function").
Qed.

(** The two versions of [_validateInput] decide alike, except on a [NaN]
    concurrency, which only the [assert] version refuses. *)
Lemma _validateInput_versions (input : @InputArg T)
    (iteratorFn : @FnArg T R E) (concurrency : ConcurrencyArg)
    (errorHandler : @HandlerArg T E) :
  concurrency ≠ VNum NaN →
  PoolOptions._validateInput input iteratorFn concurrency errorHandler =
    match _validateInput input iteratorFn concurrency errorHandler with
    | Rejected msg => Some msg
    | Fulfilled _ => None
    end.
Proof.
  intros Hnan. rewrite _validateInput_spec.
  unfold PoolOptions._validateInput. rewrite not_number_or_le0.
  destruct (truthy input); [|done].
  destruct (String.eqb (typeof iteratorFn) "function"); [|done]. cbn.
  assert (isNonPositive concurrency = negb (isPositiveNumber concurrency))
    as ->.
  { destruct concurrency as [| | |x| | | | |]; try done.
    destruct x as [| | |q]; try done. cbn. by rewrite negb_involutive. }
  destruct (isPositiveNumber concurrency); [|done]. cbn.
  destruct (truthy errorHandler); [|done].
  by destruct (String.eqb (typeof errorHandler) "function").
Qed.

Lemma NaN_concurrency_versions (input : @InputArg T)
    (iteratorFn : @FnArg T R E) :
  truthy input = true → isCallable iteratorFn →
  _validateInput input iteratorFn (VNum NaN) VUndefined
    = Rejected "concurrency must be a positive number" ∧
  PoolOptions._validateInput input iteratorFn (VNum NaN) VUndefined = None.
Proof.
  intros Hin Hfn. apply typeof_function in Hfn.
  rewrite _validateInput_spec. unfold PoolOptions._validateInput.
  by rewrite Hin, Hfn.
Qed.

(** C4, as amended (invalid arguments are refused before any work). When
    the input is [null], the operation is not callable, the concurrency is
    given and is not a positive number (not of type number, or [NaN], zero
    or negative), or a truthy failure handler is not callable, the call of
    [src/index.ts] fails at once: it throws the assertion message. The
    options version returns an outcome whose only content is that error in
    the same cases but one: its check is [concurrency <= 0], which a [NaN]
    concurrency passes, so [NaN] alone does not make it fail. In both the
    message is about a parameter that is indeed invalid, and no iterator,
    worker or machine state exists, so no item is pulled and the operation
    is never called. *)
Theorem invalid_arguments_rejected (input : @InputArg T)
    (iteratorFn : @FnArg T R E) (concurrency : ConcurrencyArg)
    (errorHandler : @HandlerArg T E) :
  (input = VNull ∨ ¬ isCallable iteratorFn ∨
   (concurrency ≠ VUndefined ∧ isPositiveNumber concurrency = false) ∨
   (truthy errorHandler = true ∧ ¬ isCallable errorHandler) →
   ∃ msg,
     promisePool chars input iteratorFn concurrency errorHandler
       = Throws (AssertionError msg) ∧
     identifies msg input iteratorFn concurrency errorHandler) ∧
  (input = VNull ∨ ¬ isCallable iteratorFn ∨
   (concurrency ≠ VUndefined ∧ isPositiveNumber concurrency = false ∧
    concurrency ≠ VNum NaN) ∨
   (truthy errorHandler = true ∧ ¬ isCallable errorHandler) →
   ∃ msg,
     PoolOptions.promisePool chars input iteratorFn concurrency errorHandler
       = PoolOptions.Returns (mkOutcome [] [inl msg] [] false) ∧
     identifies msg input iteratorFn concurrency errorHandler).
Proof.
  set (c := match concurrency with
            | VUndefined => VNum (Fin 2)
            | _ => concurrency
            end).
  assert (isPositiveNumber c = false →
          concurrency ≠ VUndefined ∧ isPositiveNumber concurrency = false)
    as Hc.
  { subst c. by destruct concurrency. }
  assert (concurrency ≠ VUndefined → c = concurrency) as Hc'.
  { subst c. by destruct concurrency. }
  unfold identifies. split; intros Hinvalid.
  - unfold promisePool. rewrite _validateInput_spec. fold c.
    destruct (truthy input) eqn:Hin; cbn.
    2: { eexists. split; [done|]. by left. }
    destruct (String.eqb (typeof iteratorFn) "function") eqn:Hfn; cbn.
    2: { assert (¬ isCallable iteratorFn).
         { rewrite <- typeof_function. congruence. }
         eexists. split; [done|]. by right; left. }
    apply typeof_function in Hfn.
    destruct (isPositiveNumber c) eqn:Hpos; cbn.
    2: { destruct (Hc eq_refl) as [Hu Hnpos].
         eexists. split; [done|]. by right; right; left. }
    destruct (truthy errorHandler && _) eqn:Hand; cbn.
    + apply truthy_not_function in Hand as [_ Hnc].
      eexists. split; [done|]. by do 3 right.
    + exfalso. destruct Hinvalid as [-> | [? | [[Hu Hnpos] | Hh]]];
        [done | done | | by apply truthy_not_function in Hh; congruence].
      rewrite (Hc' Hu) in Hpos. congruence.
  - unfold PoolOptions.promisePool, PoolOptions._validateInput. fold c.
    rewrite not_number_or_le0.
    destruct (truthy input) eqn:Hin; cbn.
    2: { eexists. split; [done|]. by left. }
    destruct (String.eqb (typeof iteratorFn) "function") eqn:Hfn; cbn.
    2: { assert (¬ isCallable iteratorFn).
         { rewrite <- typeof_function. congruence. }
         eexists. split; [done|]. by right; left. }
    apply typeof_function in Hfn.
    destruct (isNonPositive c) eqn:Hnp; cbn.
    1: { destruct (Hc (nonPositive_not_positive _ Hnp)) as [Hu Hnpos].
         eexists. split; [done|]. by right; right; left. }
    destruct (truthy errorHandler && _) eqn:Hand; cbn.
    + apply truthy_not_function in Hand as [_ Hnc].
      eexists. split; [done|]. by do 3 right.
    + exfalso. destruct Hinvalid as [-> | [? | [(Hu & Hnpos & Hnan) | Hh]]];
        [done | done | | by apply truthy_not_function in Hh; congruence].
      rewrite (Hc' Hu), (not_positive_nonPositive _ Hnpos Hnan) in Hnp.
      congruence.
Qed.

End Validation.

(** ** The runs of the test suite, executed *)

Section Runs.
Import Tests.

Lemma after_reachable {T R E} (env : Env T R E) (n : nat) sched st :
  run env sched (launch env n) = Some st → reachable env n st.
Proof. apply run_reachable, reach_launch. Qed.

(** With one worker the abort run has exactly four states. *)
Lemma stopEnv_states st :
  reachable stopEnv 1 st →
  st = after stopEnv 1 [] ∨ st = after stopEnv 1 [0] ∨
  st = after stopEnv 1 [0; 0] ∨ st = after stopEnv 1 [0; 0; 0].
Proof.
  induction 1 as [|st w st' _ IH Hstep]; [by left|].
  destruct IH as [-> | [-> | [-> | ->]]]; destruct w as [|w];
    vm_compute in Hstep; simplify_eq; vm_compute; eauto.
Qed.

(** C5 (abort semantics). The call with concurrency 1 over [[1, 2, 3]],
    an operation that throws on every item and a handler that returns
    [POOL_STOP_SIGNAL] launches one worker, returns after three
    resumptions, and whenever it returns the operation has been called
    exactly once, on the first item, and [stoppedPrematurely] is [true]. *)
Theorem abort_stops_after_first_failure :
  promisePool noChars (VIter [1; 2; 3]%Z) (VFun stopTask) (VNum (Fin 1))
    (VFun stopHandler) = Runs stopEnv 1 ∧
  (∃ st, run stopEnv [0; 0; 0] (launch stopEnv 1) = Some st ∧
         returns st (outcome st)) ∧
  (∀ st o, reachable stopEnv 1 st → returns st o →
     invoked st = [1%Z] ∧ length (invoked st) = 1 ∧
     stoppedPrematurely o = true).
Proof.
  split; [done|]. split.
  - eexists. split; [vm_compute; reflexivity|]. by split.
  - intros st o Hreach [Hfin ->].
    destruct (stopEnv_states _ Hreach) as [-> | [-> | [-> | ->]]];
      vm_compute in Hfin; by try discriminate.
Qed.

(** C4 as stated does not hold: a concurrency of 1.5 is no positive finite
    integer, yet the call launches a worker that pulls the first item; and
    the number 0 given as handler is not callable, yet the call launches
    its workers. *)
Lemma invalid_arguments_accepted :
  isPositiveFiniteInteger (VNum (Fin (3 # 2)) : ConcurrencyArg) = false ∧
  promisePool noChars (VIter [1; 2; 3]%Z) (VFun stopTask)
    (VNum (Fin (3 # 2))) (VFun stopHandler) = Runs stopEnv 1 ∧
  cursor (launch stopEnv 1) = 1 ∧
  ¬ isCallable (VNum (Fin 0) : @HandlerArg Z string) ∧
  promisePool noChars (VIter [1; 2; 3]%Z) (VFun stopTask) (VNum (Fin 1))
    (VNum (Fin 0)) = Runs (mkEnv [1; 2; 3]%Z stopTask None) 1.
Proof.
  split; [done|]. split; [done|]. split; [done|]. split; [|done].
  by intros [f Hf].
Qed.

(** *** Instances of the properties on these runs *)


Lemma boomEnv_neverThrows : neverThrows boomEnv.
Proof. by intros h err item e Hh. Qed.

(** The handler of the async-handler test resolves to [undefined]: it
    never hands back the signal. *)
Lemma waitEnv_neverStops : neverStops waitEnv.
Proof.
  intros h err item action Hh Hact. cbn in Hh. simplify_eq.
  unfold waitHandler in Hact. by simplify_eq.
Qed.

Lemma boomSchedule_reachable :
  reachable boomEnv 2 (after boomEnv 2 boomSchedule).
Proof.
  apply (after_reachable boomEnv 2 boomSchedule). vm_compute. reflexivity.
Qed.

Lemma boomSchedule_returns :
  returns (after boomEnv 2 boomSchedule)
    (outcome (after boomEnv 2 boomSchedule)).
Proof. split; vm_compute; reflexivity. Qed.


Lemma failures_never_raise_witness :
  out_failedItems (outcome (after boomEnv 2 boomSchedule)) = [inr "error"] ∧
  out_errors (outcome (after boomEnv 2 boomSchedule)) = ["Boom"] ∧
  List.filter (throws boomEnv) (invoked (after boomEnv 2 boomSchedule))
    ≡ₚ out_failedItems (outcome (after boomEnv 2 boomSchedule)) ∧
  Forall2 (λ err item, boomTask item = Rejected err)
    (out_errors (outcome (after boomEnv 2 boomSchedule)))
    (out_failedItems (outcome (after boomEnv 2 boomSchedule))) ∧
  ∃ sched st' o,
    run boomEnv sched (launch boomEnv 2) = Some st' ∧ returns st' o ∧
    List.filter (throws boomEnv) (invoked st') ≡ₚ out_failedItems o ∧
    Forall2 (λ err item, boomTask item = Rejected err)
      (out_errors o) (out_failedItems o).
Proof.
  assert (promisePool noChars (VIter [inl 1%Z; inr "error"; inl 3%Z])
            (VFun boomTask) VUndefined VUndefined = Runs boomEnv 2)
    as Hcall by (vm_compute; reflexivity).
  pose proof (failures_never_raise boomEnv 2 noChars _ _ _ _ Hcall)
    as (_ & _ & _ & Hrecorded & Hreturns).
  split; [vm_compute; reflexivity|]. split; [vm_compute; reflexivity|].
  split; [|split].
  - exact (proj1 (Hrecorded _ _ boomSchedule_reachable boomSchedule_returns)).
  - exact (proj2 (Hrecorded _ _ boomSchedule_reachable boomSchedule_returns)).
  - exact (proj2 (Hreturns boomEnv_neverThrows (launch boomEnv 2)
                    (reach_launch boomEnv 2))).
Defined.

Lemma failures_recorded_witness :
  errors (after boomEnv 2 [0; 1; 1])
    = errors (after boomEnv 2 [0; 1]) ++ ["Boom"] ∧
  failedItems (after boomEnv 2 [0; 1; 1])
    = failedItems (after boomEnv 2 [0; 1]) ++ [inr "error"].
Proof.
  assert (reachable boomEnv 2 (after boomEnv 2 [0; 1])) as Hreach.
  { apply (after_reachable boomEnv 2 [0; 1]). vm_compute. reflexivity. }
  assert (step boomEnv 1 (after boomEnv 2 [0; 1])
            = Some (after boomEnv 2 [0; 1; 1])) as Hstep.
  { vm_compute. reflexivity. }
  pose proof (proj1 (failures_recorded boomEnv 2 _ Hreach) 1 _ Hstep) as H.
  vm_compute in H. vm_compute. exact H.
Defined.

Lemma errors_paired_witness :
  Forall2 (λ err item, boomTask item = Rejected err)
    (errors (after boomEnv 2 boomSchedule))
    (failedItems (after boomEnv 2 boomSchedule)).
Proof.
  apply (proj1 (errors_paired boomEnv 2 (after boomEnv 2 boomSchedule)
                  (outcome (after boomEnv 2 boomSchedule))
                  boomSchedule_reachable boomSchedule_returns)).
Defined.

Lemma success_suppressed_after_abort_witness :
  isAborted (after boomStopEnv 2 [0; 1; 0; 0]) = true ∧
  results (after boomStopEnv 2 [0; 1; 0; 0; 1])
    = results (after boomStopEnv 2 [0; 1; 0; 0]).
Proof.
  split; [vm_compute; reflexivity|].
  assert (workers (after boomStopEnv 2 [0; 1; 0; 0]) !! 1
            = Some (AwaitFn (inl 3%Z))) as Hw by (vm_compute; reflexivity).
  assert (env_fn boomStopEnv (inl 3%Z) = Fulfilled (inl 3%Z)) as Hfn
    by reflexivity.
  assert (step boomStopEnv 1 (after boomStopEnv 2 [0; 1; 0; 0])
            = Some (after boomStopEnv 2 [0; 1; 0; 0; 1])) as Hstep
    by (vm_compute; reflexivity).
  pose proof (proj1 (success_suppressed_after_abort boomStopEnv) _ _ _ _ _
                Hw Hfn Hstep) as H.
  vm_compute in H. vm_compute. exact H.
Defined.

Lemma handlers_finish_before_return_witness :
  handlerCalls (after waitEnv 1 [0; 0; 0; 0])
    ≡ₚ handlerDone (after waitEnv 1 [0; 0; 0; 0]).
Proof.
  assert (reachable waitEnv 1 (after waitEnv 1 [0; 0; 0; 0])) as Hreach.
  { apply (after_reachable waitEnv 1 [0; 0; 0; 0]).
    vm_compute. reflexivity. }
  assert (returns (after waitEnv 1 [0; 0; 0; 0])
            (outcome (after waitEnv 1 [0; 0; 0; 0]))) as Hret.
  { split; vm_compute; reflexivity. }
  apply (proj1 (proj1 (proj2 (proj2
           (handlers_finish_before_return waitEnv 1))) _ _ Hreach Hret)).
Defined.

Lemma abort_only_on_signal_witness :
  isAborted (after stopEnv 1 [0; 0]) = false ∧
  (∃ st', step stopEnv 0 (after stopEnv 1 [0; 0]) = Some st' ∧
          isAborted st' = true) ∧
  stoppedPrematurely (outcome (after stopEnv 1 [0; 0; 0])) = true ∧
  isAborted (after waitEnv 1 [0; 0; 0; 0]) = false ∧
  stoppedPrematurely (outcome (after waitEnv 1 [0; 0; 0; 0])) = false.
Proof.
  pose proof (abort_only_on_signal stopEnv 1)
    as (_ & Hresume & _ & _ & Hreturn & _).
  pose proof (abort_only_on_signal waitEnv 1)
    as (_ & _ & _ & _ & _ & Hnever).
  assert (workers (after stopEnv 1 [0; 0]) !! 0
            = Some (AwaitHandler "Stop" 1%Z (Fulfilled POOL_STOP_SIGNAL)))
    as Hw by (vm_compute; reflexivity).
  split; [vm_compute; reflexivity|]. split; [|split].
  - destruct (Hresume _ _ _ _ _ Hw) as (st' & Hstep & _ & Hsig & _).
    exists st'. split; [exact Hstep|]. apply Hsig. reflexivity.
  - assert (run stopEnv [0] (after stopEnv 1 [0; 0])
              = Some (after stopEnv 1 [0; 0; 0])) as Hrun
      by (vm_compute; reflexivity).
    assert (returns (after stopEnv 1 [0; 0; 0])
              (outcome (after stopEnv 1 [0; 0; 0]))) as Hret
      by (split; vm_compute; reflexivity).
    exact (Hreturn _ _ _ _ _ _ _ Hw Hrun Hret).
  - assert (reachable waitEnv 1 (after waitEnv 1 [0; 0; 0; 0])) as Hreach.
    { apply (after_reachable waitEnv 1 [0; 0; 0; 0]).
      vm_compute. reflexivity. }
    exact (Hnever waitEnv_neverStops _ Hreach).
Defined.

Lemma exactly_once_consumption_witness :
  NoDup (pulls (after boomEnv 2 boomSchedule)).*2 ∧
  cursor (after boomEnv 2 boomSchedule) = 3.
Proof.
  pose proof (exactly_once_consumption boomEnv 2
                (after boomEnv 2 boomSchedule) boomSchedule_reachable)
    as (_ & _ & Hnd & _ & _ & Hall).
  split; [exact Hnd|].
  apply (Hall _ boomSchedule_returns); [vm_compute; reflexivity | lia].
Defined.

Lemma abort_stops_after_first_failure_witness :
  invoked (after stopEnv 1 [0; 0; 0]) = [1%Z] ∧
  length (invoked (after stopEnv 1 [0; 0; 0])) = 1 ∧
  stoppedPrematurely (outcome (after stopEnv 1 [0; 0; 0])) = true.
Proof.
  assert (reachable stopEnv 1 (after stopEnv 1 [0; 0; 0])) as Hreach.
  { apply (after_reachable stopEnv 1 [0; 0; 0]). vm_compute. reflexivity. }
  assert (returns (after stopEnv 1 [0; 0; 0])
            (outcome (after stopEnv 1 [0; 0; 0]))) as Hret.
  { split; vm_compute; reflexivity. }
  apply (proj2 (proj2 abort_stops_after_first_failure) _ _ Hreach Hret).
Defined.

Lemma invalid_arguments_rejected_witness :
  promisePool noChars (VIter [1; 2; 3]%Z) (VFun stopTask) (VNum NaN)
    VUndefined
    = Throws (AssertionError "concurrency must be a positive number") ∧
  (∃ msg,
     PoolOptions.promisePool noChars (VIter [1; 2; 3]%Z) (VFun stopTask)
       (VNum (Fin 0)) VUndefined
       = PoolOptions.Returns (mkOutcome [] [inl msg] [] false) ∧
     identifies msg (VIter [1; 2; 3]%Z) (VFun stopTask) (VNum (Fin 0))
       VUndefined).
Proof.
  split.
  - destruct (proj1 (invalid_arguments_rejected noChars (VIter [1; 2; 3]%Z)
                       (VFun stopTask) (VNum NaN) VUndefined))
      as (msg & Hcall & _).
    + right. right. left. split; [discriminate | reflexivity].
    + rewrite Hcall. vm_compute in Hcall. congruence.
  - apply (proj2 (invalid_arguments_rejected noChars (VIter [1; 2; 3]%Z)
                    (VFun stopTask) (VNum (Fin 0)) VUndefined)).
    right. right. left.
    split; [discriminate | split; [reflexivity | discriminate]].
Defined.

End Runs.

(** ** Edges of the argument handling worth recording *)

Section Edges.
Import Tests.

(** A concurrency strictly between 0 and 1 passes validation, and
    [Array.from] then creates no worker: the call returns at once with an
    empty outcome and the input untouched. *)
Lemma fractional_concurrency_launches_nothing :
  promisePool noChars (VIter [1; 2; 3]%Z) (VFun stopTask)
    (VNum (Fin (1 # 2))) VUndefined
    = Runs (mkEnv [1; 2; 3]%Z stopTask None) 0 ∧
  returns (launch (mkEnv [1; 2; 3]%Z stopTask None) 0)
    (mkOutcome [] [] [] false) ∧
  cursor (launch (mkEnv [1; 2; 3]%Z stopTask None) 0) = 0.
Proof. done. Qed.

(** An infinite concurrency passes validation and fails in [Array.from]. *)
Lemma infinite_concurrency_throws :
  promisePool noChars (VIter [1; 2; 3]%Z) (VFun stopTask) (VNum PosInf)
    VUndefined = Throws RangeError.
Proof. done. Qed.

(** In the options version a validation failure comes back as an outcome
    with one error and no failed item. *)
Lemma options_validation_outcome :
  PoolOptions.promisePool noChars (VNull : @InputArg Z) (VFun stopTask)
    (VNum (Fin 2)) VUndefined
    = PoolOptions.Returns (mkOutcome [] [inl "input is required"] [] false).
Proof. done. Qed.

End Edges.

(** ** Further properties of the worker loop *)

Section Bounds.
Context {T R E : Type} (env : Env T R E) (n : nat).
Implicit Types st : State T R E.
Local Arguments Nat.min : simpl never.
Local Arguments Nat.sub : simpl never.

Lemma sum_le_length {A} (f : A → nat) (l : list A) :
  (∀ x, f x ≤ 1) → sum_list (f <$> l) ≤ length l.
Proof.
  intros Hf. induction l as [|a l IH]; cbn; [done|].
  specialize (Hf a). lia.
Qed.

Lemma bind_length_sum {A B} (f : A → list B) (l : list A) :
  length (l ≫= f) = sum_list ((λ x, length (f x)) <$> l).
Proof.
  induction l as [|a l IH]; cbn; [done|]. by rewrite length_app, IH.
Qed.

Lemma inv_ahead st :
  reachable env n st →
  cursor st ≤
    length (results st) + length (errors st)
      + sum_list (ahead <$> workers st).
Proof.
  induction 1 as [|st w st' _ IH Hstep].
  - rewrite launch_spec. cbn.
    assert (∀ m len,
      sum_list (ahead <$>
        ((λ i, AwaitNext (env_items env !! i) : Worker T E) <$> seq m len))
      = (m + len) `min` length (env_items env) - m `min` length (env_items env))
      as Hsum.
    { intros m len. revert m. induction len as [|len IHl]; intros m; cbn.
      - rewrite Nat.add_0_r. lia.
      - rewrite IHl. destruct (env_items env !! m) as [x|] eqn:Hx;
          cbn [ahead].
        + apply lookup_lt_Some in Hx. lia.
        + apply lookup_ge_None in Hx. lia. }
    rewrite Hsum. lia.
  - step_cases Hstep; try congruence;
      use_insert (sum_insert (@ahead T E));
      rewrite ?length_app; cbn in *; lia.
Qed.

Lemma inv_started st :
  reachable env n st →
  length (invoked st) ≤
    length (results st) + length (errors st)
      + sum_list (started <$> workers st).
Proof.
  induction 1 as [|st w st' _ IH Hstep].
  - rewrite launch_spec. cbn. lia.
  - step_cases Hstep; try congruence;
      use_insert (sum_insert (@started T E));
      rewrite ?length_app; cbn in *; lia.
Qed.

(** X1 (bounded read-ahead). In every reachable state, aborted or not, the
    number of items pulled from the source exceeds the number of recorded
    results and errors by at most the number of workers: the input is read
    lazily, never more than one item per worker ahead. *)
Theorem bounded_lookahead st :
  reachable env n st →
  cursor st ≤ length (results st) + length (errors st) + n.
Proof.
  intros Hreach. pose proof (inv_ahead _ Hreach) as Hle.
  pose proof (sum_le_length (@ahead T E) (workers st)) as Hsum.
  rewrite (reachable_workers_length _ _ _ Hreach) in Hsum.
  assert (∀ k : Worker T E, ahead k ≤ 1) as Hone.
  { intros [[?|]|?|? ? ?| |?]; cbn; lia. }
  specialize (Hsum Hone). lia.
Qed.

(** X2 (concurrency bound). In every reachable state at most [n] calls
    of [iteratorFn] are awaited, and the calls made so far exceed the
    recorded results and errors by at most [n], whether or not the pool
    has been aborted. *)
Theorem in_flight_bounded st :
  reachable env n st →
  length (workers st ≫= pendingOutcome env) ≤ n ∧
  length (invoked st) ≤ length (results st) + length (errors st) + n.
Proof.
  intros Hreach. pose proof (reachable_workers_length _ _ _ Hreach) as Hlen.
  split.
  - rewrite bind_length_sum, <- Hlen. apply sum_le_length.
    intros [[?|]|?|? ? ?| |?]; cbn; lia.
  - pose proof (inv_started _ Hreach) as Hle.
    pose proof (sum_le_length (@started T E) (workers st)) as Hsum.
    rewrite Hlen in Hsum.
    assert (∀ k : Worker T E, started k ≤ 1) as Hone.
    { intros [[?|]|?|? ? ?| |?]; cbn; lia. }
    specialize (Hsum Hone). lia.
Qed.

End Bounds.

Section Parallelism.
Context {T R E : Type} (env : Env T R E) (n : nat).
Implicit Types st : State T R E.
Local Arguments Nat.min : simpl never.
Local Arguments Nat.sub : simpl never.

Lemma run_snoc sched w st st1 :
  run env sched st = Some st1 →
  run env (sched ++ [w]) st = step env w st1.
Proof.
  revert st. induction sched as [|w' sched IH]; intros st Hrun;
    simplify_eq/=.
  - by destruct (step env w st1).
  - destruct (step env w' st) as [st'|]; [|done]. by apply IH.
Qed.

(** After the first [k] workers have been resumed once, each of them
    awaits [iteratorFn] on the item it pulled at launch. *)
Lemma first_resumptions k :
  k ≤ n → n ≤ length (env_items env) →
  run env (seq 0 k) (launch env n) =
  Some (mkState n [] [] [] false
          ((AwaitFn <$> take k (env_items env)) ++
           ((λ i, AwaitNext (env_items env !! i)) <$> seq k (n - k)))
          ((λ i, (i, i)) <$> seq 0 n) (take k (env_items env)) [] []).
Proof.
  intros Hk Hn. induction k as [|k IH].
  - cbn. rewrite launch_spec, Nat.min_l, Nat.sub_0_r by lia. done.
  - rewrite seq_S. cbn [Nat.add]. rewrite (run_snoc _ _ _ _ (IH ltac:(lia))).
    destruct (lookup_lt_is_Some_2 (env_items env) k ltac:(lia)) as [x Hx].
    assert (length (AwaitFn <$> take k (env_items env) : list (Worker T E))
            = k) as Hlen.
    { rewrite length_fmap, length_take. lia. }
    replace (n - k) with (S (n - S k)) by lia. cbn [seq fmap list_fmap].
    unfold step. cbn [workers].
    rewrite lookup_app_r by lia. rewrite Hlen, Nat.sub_diag. cbn.
    rewrite Hx. cbn. f_equal. unfold set_workers, log_invoked. cbn.
    rewrite (take_S_r _ _ _ Hx), fmap_app. cbn.
    f_equal. rewrite insert_app_r_alt by lia.
    rewrite Hlen, Nat.sub_diag. cbn. by rewrite <- (assoc (++)).
Qed.

(** X3 (full parallelism is reached). When the input has at least [n]
    items, resuming every worker once leads to a state in which all [n]
    workers await [iteratorFn], on the first [n] items: the bound of [n]
    concurrent operations is attained. *)
Theorem full_parallelism_reached :
  n ≤ length (env_items env) →
  ∃ st,
    run env (seq 0 n) (launch env n) = Some st ∧
    workers st = AwaitFn <$> take n (env_items env) ∧
    invoked st = take n (env_items env) ∧
    length (workers st ≫= pendingOutcome env) = n.
Proof.
  intros Hn. eexists. split; [by apply first_resumptions|].
  cbn. rewrite Nat.sub_diag. cbn. rewrite app_nil_r.
  split; [done|]. split; [done|].
  rewrite bind_length_sum, <- list_fmap_compose.
  assert (∀ l : list T,
    sum_list ((λ x, length (pendingOutcome env x)) ∘ AwaitFn <$> l)
    = length l) as Hsum.
  { induction l as [|a l IH]; cbn; [done|]. by rewrite IH. }
  rewrite Hsum, length_take. lia.
Qed.

End Parallelism.

Section Termination.
Context {T R E : Type} (env : Env T R E) (n : nat).
Implicit Types st : State T R E.
Local Arguments Nat.min : simpl never.
Local Arguments Nat.sub : simpl never.

Lemma step_resumptionsLeft st w st' :
  reachable env n st → step env w st = Some st' →
  resumptionsLeft env st' < resumptionsLeft env st.
Proof.
  intros Hreach Hstep. destruct (inv_account _ _ _ Hreach) as (Hc & _ & _).
  unfold resumptionsLeft.
  step_cases Hstep; try congruence; use_insert (sum_insert (@rank T E));
    repeat match goal with
    | H : env_items _ !! _ = _ |- _ =>
        first [apply lookup_lt_Some in H | apply lookup_ge_None in H]
    end; lia.
Qed.

Lemma launch_resumptionsLeft :
  resumptionsLeft env (launch env n) = 3 * length (env_items env) + n.
Proof.
  unfold resumptionsLeft. rewrite launch_spec. cbn.
  assert (∀ m len,
    sum_list (rank <$>
      ((λ i, AwaitNext (env_items env !! i) : Worker T E) <$> seq m len))
    = 3 * ((m + len) `min` length (env_items env)
           - m `min` length (env_items env)) + len) as Hsum.
  { intros m len. revert m. induction len as [|len IHl]; intros m; cbn.
    - rewrite Nat.add_0_r. lia.
    - rewrite IHl. destruct (env_items env !! m) as [x|] eqn:Hx;
        cbn [rank].
      + apply lookup_lt_Some in Hx. lia.
      + apply lookup_ge_None in Hx. lia. }
  rewrite Hsum. lia.
Qed.

(** X4 (the call settles within [3 * M + n] resumptions). Whatever the
    operation and the handler do, an execution over an input of [M] items
    with [n] workers has at most three resumptions per item (the item, its
    operation, its handler) and one more per worker; in particular no
    execution goes on for ever. *)
Theorem resumptions_bounded sched st :
  run env sched (launch env n) = Some st →
  length sched + resumptionsLeft env st ≤ 3 * length (env_items env) + n.
Proof.
  rewrite <- launch_resumptionsLeft.
  generalize (reach_launch env n). generalize (launch env n) as st0.
  induction sched as [|w sched IH]; intros st0 Hreach Hrun; simplify_eq/=;
    [done|].
  destruct (step env w st0) as [st1|] eqn:Hstep; [|done].
  pose proof (step_resumptionsLeft _ _ _ Hreach Hstep).
  assert (reachable env n st1) as Hreach1 by by eapply reach_step.
  specialize (IH _ Hreach1 Hrun). lia.
Qed.

End Termination.

Section Abort.
Context {T R E : Type} (env : Env T R E) (n : nat).
Implicit Types st : State T R E.

Lemma step_windDown st w st' :
  isAborted st = true → step env w st = Some st' →
  isAborted st' = true ∧ cursor st' = cursor st ∧ pulls st' = pulls st ∧
  invoked st' = invoked st ∧ results st' = results st ∧
  sum_list (windDown <$> workers st') < sum_list (windDown <$> workers st).
Proof.
  intros Hab Hstep.
  step_cases Hstep; try congruence; use_insert (sum_insert (@windDown T E));
    repeat split; try done; lia.
Qed.

(** X5 (an abort winds the pool down). Once [isAborted] is set, no
    execution pulls another item, calls [iteratorFn] again or adds a
    result, and every worker settles within two more resumptions (one to
    take the outcome of an operation still in flight, one for its
    handler): an execution from there has at most twice as many steps as
    there are workers. *)
Theorem abort_winds_down st sched st' :
  isAborted st = true → run env sched st = Some st' →
  isAborted st' = true ∧ cursor st' = cursor st ∧ pulls st' = pulls st ∧
  invoked st' = invoked st ∧ results st' = results st ∧
  length sched ≤ 2 * length (workers st).
Proof.
  intros Hab Hrun.
  assert (isAborted st' = true ∧ cursor st' = cursor st ∧
          pulls st' = pulls st ∧ invoked st' = invoked st ∧
          results st' = results st ∧
          length sched + sum_list (windDown <$> workers st')
            ≤ sum_list (windDown <$> workers st)) as H.
  { revert st Hab Hrun. induction sched as [|w sched IH]; intros st Hab Hrun;
      simplify_eq/=; [done|].
    destruct (step env w st) as [st1|] eqn:Hstep; [|done].
    destruct (step_windDown _ _ _ Hab Hstep)
      as (Hab1 & Hc1 & Hp1 & Hi1 & Hr1 & Hlt).
    destruct (IH _ Hab1 Hrun) as (? & ? & ? & ? & ? & ?).
    repeat split; try congruence. lia. }
  destruct H as (? & ? & ? & ? & ? & Hle). repeat split; try done.
  assert (sum_list (windDown <$> workers st) ≤ 2 * length (workers st)).
  { clear. induction (workers st) as [|k ws IH]; cbn; [lia|].
    destruct k as [[?|]|?|? ? ?| |?]; cbn; lia. }
  lia.
Qed.

(** Whenever [isAborted] is set, a handler invocation that has returned
    handed back the signal. *)
Lemma inv_abort_cause st :
  reachable env n st → isAborted st = true →
  ∃ err item, (err, item) ∈ handlerDone st ∧ stopsOn env err item.
Proof.
  induction 1 as [|st w st' Hreach IH Hstep].
  - by rewrite launch_spec.
  - apply inv_fromHandler in Hreach. rewrite Forall_lookup in Hreach.
    intros Hab.
    step_cases Hstep; try congruence;
      try (destruct (IH ltac:(done)) as (err' & item' & Hin & Hstop);
           exists err', item'; split; [|done];
           first [done | apply elem_of_app; by left]).
    all: specialize (Hreach _ _ Hk); destruct Hreach as (h & Hh & Hr).
    all: exists err, item; split; [apply elem_of_app; right; by left|].
    all: by exists h, action.
Qed.

Lemma handlerDone_recorded st err item :
  reachable env n st → (err, item) ∈ handlerDone st →
  ∃ i, errors st !! i = Some err ∧ failedItems st !! i = Some item.
Proof.
  intros Hreach Hin.
  destruct (inv_handlers _ _ _ Hreach) as (lost & Hperm & _).
  assert ((err, item) ∈ handlerCalls st) as Hcall.
  { rewrite Hperm. apply elem_of_app. by left. }
  rewrite (inv_handlerCalls _ _ _ Hreach) in Hcall.
  destruct (env_handler env); [|by apply elem_of_nil in Hcall].
  apply list_elem_of_lookup in Hcall as [i Hi].
  apply lookup_zip_with_Some in Hi as (e' & t' & ? & He & Ht).
  simplify_eq. by exists i.
Qed.

(** X6 (an abort has a cause). Whenever [isAborted] is set, and so
    whenever [stoppedPrematurely] is [true], [errors] and [failedItems]
    hold at some index a failure of [iteratorFn] for which the handler
    handed back [POOL_STOP_SIGNAL]. *)
Theorem abort_has_cause st :
  reachable env n st → isAborted st = true →
  ∃ i err item,
    errors st !! i = Some err ∧ failedItems st !! i = Some item ∧
    env_fn env item = Rejected err ∧ stopsOn env err item.
Proof.
  intros Hreach Hab.
  destruct (inv_abort_cause _ Hreach Hab) as (err & item & Hin & Hstop).
  destruct (handlerDone_recorded _ _ _ Hreach Hin) as (i & He & Ht).
  exists i, err, item. repeat split; try done.
  pose proof (inv_pairing _ _ _ Hreach) as Hpair.
  destruct (Forall2_lookup_l _ _ _ _ _ Hpair He) as (item' & Ht' & Hfn).
  by simplify_eq.
Qed.

(** X7 (a signal that no failure can trigger never aborts). If the
    handler hands back [POOL_STOP_SIGNAL] only for pairs of an error and an
    item that [iteratorFn] never produces, [isAborted] stays [false] in
    every reachable state: no item is dropped and no success suppressed. *)
Theorem stop_signal_needs_a_failure st :
  (∀ err item, env_fn env item = Rejected err → ¬ stopsOn env err item) →
  reachable env n st →
  isAborted st = false ∧ stoppedPrematurely (outcome st) = false.
Proof.
  intros Hmiss Hreach. cbn.
  destruct (isAborted st) eqn:Hab; [|done].
  destruct (inv_abort_cause _ Hreach Hab) as (err & item & Hin & Hstop).
  destruct (handlerDone_recorded _ _ _ Hreach Hin) as (i & He & Ht).
  pose proof (inv_pairing _ _ _ Hreach) as Hpair.
  destruct (Forall2_lookup_l _ _ _ _ _ Hpair He) as (item' & Ht' & Hfn).
  simplify_eq. by destruct (Hmiss _ _ Hfn).
Qed.

End Abort.

Section Provenance.
Context {T R E : Type} (env : Env T R E) (n : nat).
Implicit Types st : State T R E.

Lemma invoked_from_input st :
  reachable env n st → invoked st ⊆+ env_items env.
Proof.
  intros Hreach.
  destruct (inv_invoked _ _ _ Hreach) as (dropped & Hperm & _).
  transitivity (take (cursor st) (env_items env)).
  - rewrite Hperm. by apply submseteq_inserts_r.
  - apply sublist_submseteq, sublist_take.
Qed.

(** X8 (nothing is made up or recorded twice). In every reachable state,
    aborted or not, the results and the errors recorded so far are what
    [iteratorFn] gives on items of the input, no item accounting for more
    entries than it has occurrences in the input; and every recorded
    failed item is an item of the input on which [iteratorFn] fails. *)
Theorem outcomes_from_input st :
  reachable env n st →
  (Fulfilled <$> results st) ++ (Rejected <$> errors st)
    ⊆+ env_fn env <$> env_items env ∧
  failedItems st ⊆+ List.filter (throws env) (env_items env).
Proof.
  intros Hreach. pose proof (invoked_from_input _ Hreach) as Hinv. split.
  - destruct (inv_outcomes _ _ _ Hreach) as (suppressed & Hperm & _).
    transitivity (env_fn env <$> invoked st); [|by apply fmap_submseteq].
    rewrite Hperm, (assoc (++)). by apply submseteq_inserts_r.
  - transitivity (List.filter (throws env) (invoked st)).
    + rewrite (inv_failures _ _ _ Hreach). by apply submseteq_inserts_r.
    + clear Hreach. induction Hinv as [|x l1 l2 _ IH|x y l|x l1 l2 _ IH|];
        cbn; try done.
      * destruct (throws env x); [by constructor|done].
      * destruct (throws env x), (throws env y); try done.
        by constructor.
      * destruct (throws env x); [by constructor|done].
      * etrans; done.
Qed.

Lemma returned_exhausted st o :
  reachable env n st → returns st o → isAborted st = false → 0 < n →
  exhausted env st.
Proof.
  intros Hreach Hret Hna Hn.
  pose proof (inv_parked _ _ _ Hreach) as Hpark.
  pose proof (reachable_workers_length _ _ _ Hreach) as Hlen.
  apply returns_all_finished in Hret.
  destruct (workers st) as [|k ws]; [cbn in Hlen; lia|].
  apply Forall_cons_1 in Hret as [-> _].
  apply Forall_cons_1 in Hpark as [Hk _].
  destruct (Hk eq_refl) as [Hab|Hex]; [congruence|done].
Qed.

Lemma no_errors_no_rejection st :
  reachable env n st → errors st = [] →
  handlerCalls st = [] ∧ sum_list (failedCount <$> workers st) = 0.
Proof.
  intros Hreach Herr.
  pose proof (inv_handlerCalls _ _ _ Hreach) as Hcalls.
  rewrite Herr in Hcalls.
  assert (handlerCalls st = []) as Hnil by by destruct (env_handler env).
  split; [done|].
  destruct (inv_handlers _ _ _ Hreach) as (lost & Hperm & Hlost).
  rewrite Hnil in Hperm. symmetry in Hperm.
  apply Permutation_nil_r in Hperm.
  apply app_eq_nil in Hperm as [_ [_ ->]%app_eq_nil]. by rewrite <- Hlost.
Qed.

(** X9 (the happy path). If [iteratorFn] fails on no item of the input,
    then in every reachable state [errors] and [failedItems] are empty, the
    handler has never been called and [isAborted] is unset, whatever the
    handler would do; and with at least one worker every execution can be
    continued until the call returns with [results] holding the value of
    every item, each once, in some order. *)
Theorem all_items_succeed st :
  (∀ item, item ∈ env_items env → throws env item = false) →
  reachable env n st →
  errors st = [] ∧ failedItems st = [] ∧ handlerCalls st = [] ∧
  isAborted st = false ∧
  (0 < n →
   ∃ sched st',
     run env sched st = Some st' ∧ returns st' (outcome st') ∧
     out_errors (outcome st') = [] ∧
     Fulfilled <$> out_results (outcome st')
       ≡ₚ env_fn env <$> env_items env).
Proof.
  intros Hok Hreach.
  assert (∀ st, reachable env n st →
            errors st = [] ∧ failedItems st = [] ∧ handlerCalls st = [] ∧
            isAborted st = false) as Hall.
  { clear st Hreach. intros st Hreach.
    assert (failedItems st = []) as Hfi.
    { pose proof (inv_failures _ _ _ Hreach) as Hperm.
      destruct (failedItems st) as [|item fi]; [done|]. exfalso.
      assert (item ∈ List.filter (throws env) (invoked st)) as Hin.
      { rewrite Hperm. by left. }
      apply list_elem_of_In, List.filter_In in Hin as [Hin Hthrow].
      apply list_elem_of_In in Hin.
      pose proof (elem_of_submseteq _ _ _ Hin (invoked_from_input _ Hreach)).
      rewrite Hok in Hthrow by done. done. }
    assert (errors st = []) as Herr.
    { pose proof (inv_pairing _ _ _ Hreach) as Hpair.
      apply Forall2_length in Hpair. rewrite Hfi in Hpair.
      by apply nil_length_inv. }
    destruct (no_errors_no_rejection _ Hreach Herr) as [Hcalls _].
    repeat split; try done.
    destruct (isAborted st) eqn:Hab; [|done].
    destruct (inv_abort_cause _ _ _ Hreach Hab) as (err & item & Hin & _).
    destruct (handlerDone_recorded _ _ _ _ _ Hreach Hin) as (i & He & _).
    by rewrite Herr in He. }
  destruct (Hall _ Hreach) as (Herr & Hfi & Hcalls & Hna).
  repeat split; try done. intros Hn.
  destruct (completes _ _ _ Hreach) as (sched & st' & Hrun & Hterm).
  pose proof (run_reachable _ _ _ _ _ Hreach Hrun) as Hreach'.
  destruct (Hall _ Hreach') as (Herr' & _ & _ & Hna').
  destruct (no_errors_no_rejection _ Hreach' Herr') as [_ Hnofail].
  assert (returns st' (outcome st')) as Hret.
  { split; [|done]. unfold terminal in Hterm. clear -Hterm Hnofail.
    induction (workers st') as [|k ws IH]; [done|]. cbn in *.
    apply andb_prop in Hterm as [Hk Hws].
    destruct k; try done; cbn in *; try lia. by apply IH. }
  exists sched, st'. split; [done|]. split; [done|]. split; [done|].
  pose proof (returned_exhausted _ _ Hreach' Hret Hna' Hn) as Hex.
  rewrite (returned_outcomes _ _ _ _ Hreach' Hret Hna' Hex). cbn.
  by rewrite Herr', app_nil_r.
Qed.

End Provenance.

Section Sequential.
Context {T R E : Type} (env : Env T R E).
Implicit Types st : State T R E.

Lemma successes_snoc l item :
  successes env (l ++ [item]) =
  successes env l ++
    match env_fn env item with Fulfilled res => [res] | Rejected _ => [] end.
Proof.
  unfold successes. rewrite omap_app. cbn. by destruct (env_fn env item).
Qed.

Lemma failures_snoc l item :
  failures env (l ++ [item]) =
  failures env l ++
    match env_fn env item with Rejected err => [err] | Fulfilled _ => [] end.
Proof.
  unfold failures. rewrite omap_app. cbn. by destruct (env_fn env item).
Qed.

Lemma throwing_snoc l item :
  List.filter (throws env) (l ++ [item]) =
  List.filter (throws env) l ++
    match env_fn env item with Rejected _ => [item] | Fulfilled _ => [] end.
Proof.
  rewrite List.filter_app. cbn. unfold throws.
  by destruct (env_fn env item).
Qed.

(** With one worker the recorded outcomes are those of a prefix of the
    input, and the worker holds the next item. *)
Lemma inv_sequential st :
  reachable env 1 st →
  ∃ k d,
    workers st = [k] ∧ d = length (results st) + length (errors st) ∧
    results st = successes env (take d (env_items env)) ∧
    errors st = failures env (take d (env_items env)) ∧
    failedItems st = List.filter (throws env) (take d (env_items env)) ∧
    match k with
    | AwaitNext (Some item) | AwaitFn item =>
        isAborted st = false ∧ cursor st = S d ∧
        env_items env !! d = Some item
    | AwaitNext None | AwaitHandler _ _ _ =>
        isAborted st = false ∧ cursor st = d
    | Finished | Failed _ => cursor st = d
    end.
Proof.
  induction 1 as [|st w st' _ IH Hstep].
  - rewrite launch_spec. cbn. eexists _, 0. split; [done|].
    repeat (split; [done|]). cbn.
    destruct (env_items env) as [|x l]; by cbn.
  - destruct IH as (k & d & Hws & Hd & Hres & Herr & Hfi & Hk).
    step_open Hstep. rewrite Hws in Hk0 |- *.
    destruct w as [|w]; [|done]. cbn in Hk0. simplify_eq.
    resume_cases; try (destruct Hk as (? & ? & ?); congruence);
      try (destruct Hk as (? & ?); congruence);
      repeat match goal with
      | H : _ ∧ _ |- _ => destruct H
      end;
      repeat match goal with
      | H : env_items env !! cursor ?s = _, Hc : cursor ?s = _ |- _ =>
          rewrite Hc in H
      end;
      match goal with
      | Hres : results ?s = successes env (take ?d _) |- _ =>
          first
            [ by (eexists _, d; (split; [done|]); (split; [done|]);
                  repeat split; first [done | lia | congruence])
            | eexists _, (S d); (split; [done|]);
              (split; [rewrite length_app; cbn; lia|]);
              match goal with
              | Hi : env_items env !! d = Some ?x, Hf : env_fn env ?x = _
                |- _ =>
                  rewrite (take_S_r _ _ _ Hi), successes_snoc,
                    failures_snoc, throwing_snoc, Hf, ?app_nil_r,
                    <- Hres, <- Herr, <- Hfi
              end;
              repeat split; first [done | lia | congruence] ]
      end.
Qed.

(** X10 (one worker keeps the input order). With a single worker the
    recorded outcomes are, at every moment, exactly those of a prefix of
    the input, in input order: [results] the values of its successes,
    [errors] and [failedItems] the errors and items of its failures; and
    when the call returns without abort the prefix is the whole input. *)
Theorem sequential_in_order st :
  reachable env 1 st →
  (∃ d,
     d = length (results st) + length (errors st) ∧
     results st = successes env (take d (env_items env)) ∧
     errors st = failures env (take d (env_items env)) ∧
     failedItems st = List.filter (throws env) (take d (env_items env))) ∧
  (∀ o, returns st o → stoppedPrematurely o = false →
     out_results o = successes env (env_items env) ∧
     out_errors o = failures env (env_items env) ∧
     out_failedItems o = List.filter (throws env) (env_items env)).
Proof.
  intros Hreach.
  destruct (inv_sequential _ Hreach)
    as (k & d & Hws & Hd & Hres & Herr & Hfi & Hk).
  split; [by exists d|].
  intros o Hret Hna. pose proof Hret as [_ ->]. cbn in *.
  pose proof (returned_exhausted _ _ _ _ Hreach Hret Hna ltac:(lia)) as Hex.
  pose proof (returns_all_finished _ _ Hret) as Hall.
  rewrite Hws in Hall. apply Forall_cons_1 in Hall as [-> _].
  unfold exhausted in Hex. rewrite Hk in Hex.
  by rewrite take_ge in Hres, Herr, Hfi by lia.
Qed.

End Sequential.

Section EmptyInput.
Context {T R E : Type} (env : Env T R E) (n : nat).
Implicit Types st : State T R E.

(** X11 (empty input). On an empty input, with any number of workers and
    whatever the operation and the handler are, [iteratorFn] is never
    called, nothing is ever recorded and [isAborted] stays unset; and every
    execution can be continued until the call returns the empty
    outcome. *)
Theorem empty_input st :
  env_items env = [] → reachable env n st →
  invoked st = [] ∧ results st = [] ∧ errors st = [] ∧
  failedItems st = [] ∧ isAborted st = false ∧
  ∃ sched st',
    run env sched st = Some st' ∧ returns st' (mkOutcome [] [] [] false).
Proof.
  intros Hempty Hreach.
  assert (∀ st, reachable env n st →
            invoked st = [] ∧ results st = [] ∧ errors st = [] ∧
            failedItems st = [] ∧ isAborted st = false) as Hall.
  { clear st Hreach. intros st Hreach.
    pose proof (invoked_from_input _ _ _ Hreach) as Hinv.
    rewrite Hempty in Hinv. apply submseteq_nil_r in Hinv.
    destruct (inv_outcomes _ _ _ Hreach) as (suppressed & Hperm & _).
    rewrite Hinv in Hperm. cbn in Hperm. symmetry in Hperm.
    apply Permutation_nil_r in Hperm.
    apply app_eq_nil in Hperm as [Hres [Herr _]%app_eq_nil].
    apply fmap_nil_inv in Hres, Herr.
    pose proof (inv_pairing _ _ _ Hreach) as Hpair.
    apply Forall2_length in Hpair. rewrite Herr in Hpair.
    symmetry in Hpair. apply nil_length_inv in Hpair.
    repeat split; try done.
    destruct (isAborted st) eqn:Hab; [|done].
    destruct (inv_abort_cause _ _ _ Hreach Hab) as (err & item & Hin & _).
    destruct (handlerDone_recorded _ _ _ _ _ Hreach Hin) as (i & He & _).
    by rewrite Herr in He. }
  destruct (Hall _ Hreach) as (Hinv & Hres & Herr & Hfi & Hna).
  repeat (split; [done|]).
  destruct (completes _ _ _ Hreach) as (sched & st' & Hrun & Hterm).
  pose proof (run_reachable _ _ _ _ _ Hreach Hrun) as Hreach'.
  destruct (Hall _ Hreach') as (_ & Hres' & Herr' & Hfi' & Hna').
  destruct (no_errors_no_rejection _ _ _ Hreach' Herr') as [_ Hnofail].
  exists sched, st'. split; [done|]. split.
  - unfold terminal in Hterm. clear -Hterm Hnofail.
    induction (workers st') as [|k ws IH]; [done|]. cbn in *.
    apply andb_prop in Hterm as [Hk Hws].
    destruct k; try done; cbn in *; try lia. by apply IH.
  - unfold outcome. by rewrite Hres', Herr', Hfi', Hna'.
Qed.

End EmptyInput.

(** ** Further properties of the entry point *)

Section EntryPoint.
Context {T R E : Type} (chars : string → list T).
Implicit Types (input : @InputArg T) (iteratorFn : @FnArg T R E).
Implicit Types (concurrency : ConcurrencyArg) (errorHandler : @HandlerArg T E).

Lemma gt0_Fin q : gt0 (Fin q) = true ↔ (0 < q)%Q.
Proof.
  cbn. rewrite negb_true_iff, <- not_true_iff_false, Qle_bool_iff.
  split; [apply Qnot_le_lt | apply Qlt_not_le].
Qed.

(** For a positive number, [ToLength] is the integer part. *)
Lemma toLength_floor q :
  (0 < q)%Q →
  ∃ len : Z,
    (0 ≤ len)%Z ∧ (inject_Z len <= q)%Q ∧ (q < inject_Z (len + 1))%Q ∧
    toLength (Fin q) = Z.min len (2 ^ 53 - 1).
Proof.
  destruct q as [a d]. unfold Qlt, Qle. cbn. intros Ha.
  exists (a / Z.pos d)%Z.
  assert (0 ≤ a)%Z as Ha' by lia.
  rewrite (Z.quot_div_nonneg a (Z.pos d)) by lia.
  pose proof (Z.div_pos a (Z.pos d) Ha' ltac:(lia)).
  pose proof (Z.mul_div_le a (Z.pos d) ltac:(lia)).
  pose proof (Z.mul_succ_div_gt a (Z.pos d) ltac:(lia)).
  repeat split; lia.
Qed.

Lemma handler_accepted errorHandler :
  truthy errorHandler = false ∨ isCallable errorHandler →
  truthy errorHandler &&
    negb (String.eqb (typeof errorHandler) "function") = false.
Proof.
  intros [->|Hc]; [done|]. apply typeof_function in Hc. rewrite Hc.
  by rewrite andb_false_r.
Qed.

(** X12 (how many workers are launched). For an iterable input, a callable
    operation and a handler that is falsy or callable: with the
    concurrency omitted two workers are launched; with a positive
    concurrency below [2^32] the number of workers is its integer part
    (none if it is below 1); from [2^32] on, and for [Infinity],
    validation passes and [Array.from] throws a RangeError before any
    worker exists. *)
Theorem workers_launched (items : list T) (f : @IteratorFn T R E)
    errorHandler :
  truthy errorHandler = false ∨ isCallable errorHandler →
  promisePool chars (VIter items) (VFun f) VUndefined errorHandler
    = Runs (mkEnv items f (handlerOf errorHandler)) 2 ∧
  (∀ q, (0 < q)%Q → (q < inject_Z (2 ^ 32))%Q →
     ∃ n : nat,
       promisePool chars (VIter items) (VFun f) (VNum (Fin q)) errorHandler
         = Runs (mkEnv items f (handlerOf errorHandler)) n ∧
       (inject_Z (Z.of_nat n) <= q)%Q ∧
       (q < inject_Z (Z.of_nat n + 1))%Q) ∧
  (∀ q, (inject_Z (2 ^ 32) <= q)%Q →
     promisePool chars (VIter items) (VFun f) (VNum (Fin q)) errorHandler
       = Throws RangeError) ∧
  promisePool chars (VIter items) (VFun f) (VNum PosInf) errorHandler
    = Throws RangeError.
Proof.
  intros Hh. apply handler_accepted in Hh.
  split; [|split; [|split]].
  - unfold promisePool. rewrite _validateInput_spec. cbn. by rewrite Hh.
  - intros q Hpos Hlt.
    destruct (toLength_floor q Hpos) as (len & Hlen & Hle & Hgt & Hto).
    assert (len < 2 ^ 32)%Z as Hsmall.
    { destruct (Z.lt_ge_cases len (2 ^ 32)) as [|Hbig]; [done|].
      exfalso. rewrite Zle_Qle in Hbig.
      apply (Qlt_irrefl q). eapply Qlt_le_trans; [exact Hlt|].
      eapply Qle_trans; [exact Hbig|exact Hle]. }
    exists (Z.to_nat len). rewrite Z2Nat.id by done. split; [|done].
    unfold promisePool. rewrite _validateInput_spec. cbn -[toLength].
    rewrite Hh. apply gt0_Fin in Hpos. cbn in Hpos. rewrite Hpos.
    cbn -[toLength]. unfold arrayFromLength. rewrite Hto.
    rewrite Z.min_l by lia.
    destruct (Z.ltb_spec len (2 ^ 32)); [done|lia].
  - intros q Hbig.
    assert (0 < q)%Q as Hpos.
    { eapply Qlt_le_trans; [|exact Hbig]. done. }
    destruct (toLength_floor q Hpos) as (len & Hlen & Hle & Hgt & Hto).
    assert (2 ^ 32 ≤ len)%Z as Hlarge.
    { apply Z.lt_succ_r. rewrite Zlt_Qlt.
      eapply Qle_lt_trans; [exact Hbig|]. exact Hgt. }
    unfold promisePool. rewrite _validateInput_spec. cbn -[toLength].
    rewrite Hh. apply gt0_Fin in Hpos. cbn in Hpos. rewrite Hpos.
    cbn -[toLength]. unfold arrayFromLength. rewrite Hto.
    destruct (Z.ltb_spec (Z.min len (2 ^ 53 - 1)) (2 ^ 32)); [lia|done].
  - unfold promisePool. rewrite _validateInput_spec. cbn. by rewrite Hh.
Qed.

(** X13 (what the input may be). A falsy input is refused with the
    message "input is required" whatever the other arguments are, the empty
    string included although it is an empty iterable; a truthy input that
    is not iterable (a number, [true], a symbol, a plain object, a
    function) passes validation with otherwise valid arguments, and the
    call then throws a TypeError before any worker exists. *)
Theorem input_must_be_truthy_iterable input iteratorFn concurrency
    errorHandler :
  (truthy input = false →
   promisePool chars input iteratorFn concurrency errorHandler
     = Throws (AssertionError "input is required")) ∧
  promisePool chars (VStr "") iteratorFn concurrency errorHandler
    = Throws (AssertionError "input is required") ∧
  (truthy input = true → getIterator chars input = None →
   isCallable iteratorFn →
   concurrency = VUndefined ∨ isPositiveNumber concurrency = true →
   truthy errorHandler = false ∨ isCallable errorHandler →
   promisePool chars input iteratorFn concurrency errorHandler
     = Throws TypeError).
Proof.
  split; [|split].
  - intros Hin. unfold promisePool. rewrite _validateInput_spec.
    by rewrite Hin.
  - unfold promisePool. by rewrite _validateInput_spec.
  - intros Hin Hit Hfn Hc Hh. apply handler_accepted in Hh.
    apply typeof_function in Hfn.
    unfold promisePool. rewrite _validateInput_spec, Hin, Hfn, Hh. cbn.
    assert (isPositiveNumber
              match concurrency with
              | VUndefined => VNum (Fin 2)
              | _ => concurrency
              end = true) as ->.
    { destruct Hc as [->|Hc]; [done|]. by destruct concurrency. }
    cbn. by rewrite Hit.
Qed.

(** X14 (the two versions agree). On every call whose concurrency is not
    [NaN] the options version does what [src/index.ts] does, except that
    it reports a validation failure in the outcome instead of throwing it:
    same message, same workers on the same input, same TypeError and
    RangeError. *)
Theorem versions_agree input iteratorFn concurrency errorHandler :
  concurrency ≠ VNum NaN →
  PoolOptions.promisePool chars input iteratorFn concurrency errorHandler =
    match promisePool chars input iteratorFn concurrency errorHandler with
    | Throws (AssertionError msg) =>
        PoolOptions.Returns (mkOutcome [] [inl msg] [] false)
    | Throws e => PoolOptions.Throws e
    | Runs env n => PoolOptions.Runs env n
    end.
Proof.
  intros Hnan. unfold PoolOptions.promisePool, promisePool.
  rewrite _validateInput_versions by by destruct concurrency.
  destruct (_validateInput _ _ _ _); [|done].
  destruct (getIterator chars input); [|done].
  destruct iteratorFn; try done.
  destruct concurrency; try done; by destruct (arrayFromLength _).
Qed.

(** X15 (a concurrency that truncates to zero). With no worker the call
    returns at once with the empty outcome, the input untouched and
    nothing reported; this is what a concurrency strictly between 0 and 1
    gives in [src/index.ts], and what [NaN] gives in the options version,
    which validation lets through there. *)
Theorem zero_workers (items : list T) (f : @IteratorFn T R E) errorHandler :
  truthy errorHandler = false ∨ isCallable errorHandler →
  (∀ q, (0 < q)%Q → (q < 1)%Q →
     promisePool chars (VIter items) (VFun f) (VNum (Fin q)) errorHandler
       = Runs (mkEnv items f (handlerOf errorHandler)) 0) ∧
  PoolOptions.promisePool chars (VIter items) (VFun f) (VNum NaN)
    errorHandler
    = PoolOptions.Runs (mkEnv items f (handlerOf errorHandler)) 0 ∧
  (∀ st, reachable (mkEnv items f (handlerOf errorHandler)) 0 st →
     returns st (mkOutcome [] [] [] false) ∧ cursor st = 0 ∧
     invoked st = []).
Proof.
  intros Hh. apply handler_accepted in Hh. split; [|split].
  - intros q Hpos Hlt.
    destruct (toLength_floor q Hpos) as (len & Hlen & Hle & Hgt & Hto).
    assert (len = 0)%Z as ->.
    { destruct (Z.lt_ge_cases len 1) as [|Hbig]; [lia|].
      exfalso. rewrite Zle_Qle in Hbig.
      apply (Qlt_irrefl q). eapply Qlt_le_trans; [exact Hlt|].
      eapply Qle_trans; [exact Hbig|exact Hle]. }
    unfold promisePool. rewrite _validateInput_spec. cbn -[toLength].
    rewrite Hh. apply gt0_Fin in Hpos. cbn in Hpos. rewrite Hpos.
    cbn -[toLength]. unfold arrayFromLength. by rewrite Hto.
  - unfold PoolOptions.promisePool, PoolOptions._validateInput. cbn.
    by rewrite Hh.
  - intros st Hreach.
    assert (st = launch (mkEnv items f (handlerOf errorHandler)) 0) as ->.
    { induction Hreach as [|st w st' _ -> Hstep]; [done|].
      by destruct w. }
    done.
Qed.

End EntryPoint.

(** ** Further properties of the failure handler *)

Section Handler.
Context {T R E : Type} (env : Env T R E) (n : nat).
Implicit Types st : State T R E.

(** X16 (one handler call per failure). In every reachable state, also
    after an abort, the handler has been called exactly once for each
    recorded failure, in the order of [errors], with that error and its
    item; without a handler nothing is called. *)
Theorem handler_called_once_per_failure st :
  reachable env n st →
  match env_handler env with
  | Some h =>
      handlerCalls st = zip (errors st) (failedItems st) ∧
      length (handlerCalls st) = length (errors st) ∧
      Forall (λ call, env_fn env call.2 = Rejected call.1) (handlerCalls st)
  | None => handlerCalls st = []
  end.
Proof.
  intros Hreach. pose proof (inv_handlerCalls _ _ _ Hreach) as Hcalls.
  destruct (env_handler env) as [h|]; [|done].
  pose proof (inv_pairing _ _ _ Hreach) as Hpair.
  split; [done|]. split.
  - rewrite Hcalls, length_zip_with.
    apply Forall2_length in Hpair. lia.
  - rewrite Hcalls. clear Hcalls.
    induction Hpair as [|err item errs its Hfn _ IH]; by constructor.
Qed.

Lemma step_keeps_rejection st w st' e :
  rejects st e → step env w st = Some st' → rejects st' e.
Proof.
  unfold rejects. intros Hrej Hstep.
  apply list_elem_of_lookup in Hrej as [i Hi].
  step_open Hstep. cbn.
  destruct (decide (i = w)) as [->|Hne].
  - rewrite Hi in Hk. by simplify_eq.
  - apply list_elem_of_lookup. exists i. by rewrite list_lookup_insert_ne.
Qed.

(** X17 (a throwing handler rejects the call without stopping the pool).
    The worker whose handler throws is rejected with what was thrown,
    leaving [isAborted] and the cursor as they are; from then on the call
    never returns an outcome; and the other workers go on: every
    execution can still be continued until all workers have settled, and
    if [isAborted] is then unset and one of them is fulfilled, the whole
    input has been pulled. *)
Theorem handler_throw_rejects_without_stopping :
  (∀ st w err item e st',
     workers st !! w = Some (AwaitHandler err item (Rejected e)) →
     step env w st = Some st' →
     rejects st' e ∧ isAborted st' = isAborted st ∧
     cursor st' = cursor st) ∧
  (∀ st e sched st',
     rejects st e → run env sched st = Some st' →
     rejects st' e ∧ ∀ o, ¬ returns st' o) ∧
  (∀ st,
     reachable env n st →
     ∃ sched st',
       run env sched st = Some st' ∧ terminal st' = true ∧
       (∀ w, isAborted st' = false → workers st' !! w = Some Finished →
          cursor st' = length (env_items env))).
Proof.
  split; [|split].
  - intros st w err item e st' Hw Hstep. step_open Hstep.
    rewrite Hw in Hk. simplify_eq/=. split; [|done].
    unfold rejects. cbn. apply list_elem_of_lookup. exists w.
    apply list_lookup_insert_eq. by eapply lookup_lt_Some.
  - intros st e sched st' Hrej Hrun.
    assert (rejects st' e) as Hrej'.
    { revert st Hrej Hrun. induction sched as [|w sched IH];
        intros st Hrej Hrun; simplify_eq/=; [done|].
      destruct (step env w st) as [st1|] eqn:Hstep; [|done].
      eapply IH; [|done]. by eapply step_keeps_rejection. }
    split; [done|]. intros o Hret.
    apply returns_all_finished in Hret. rewrite Forall_forall in Hret.
    by apply Hret in Hrej'.
  - intros st Hreach.
    destruct (completes _ _ _ Hreach) as (sched & st' & Hrun & Hterm).
    pose proof (run_reachable _ _ _ _ _ Hreach Hrun) as Hreach'.
    exists sched, st'. split; [done|]. split; [done|]. intros w Hna Hw.
    pose proof (inv_parked _ _ _ Hreach') as Hpark.
    rewrite Forall_lookup in Hpark.
    destruct (inv_account _ _ _ Hreach') as (Hle & _ & _).
    destruct (Hpark _ _ Hw eq_refl) as [Hab|Hex]; [congruence|].
    unfold exhausted in Hex. lia.
Qed.

End Handler.

(** ** Instances of the further properties on the runs of the test suite *)

Section MoreRuns.
Import Tests.

Lemma boomStop_aborted_reachable :
  reachable boomStopEnv 2 (after boomStopEnv 2 [0; 1; 0; 0]).
Proof.
  apply (after_reachable boomStopEnv 2 [0; 1; 0; 0]).
  vm_compute. reflexivity.
Qed.

Lemma bounded_lookahead_witness :
  cursor (after boomStopEnv 2 [0; 1; 0; 0])
    ≤ length (results (after boomStopEnv 2 [0; 1; 0; 0]))
      + length (errors (after boomStopEnv 2 [0; 1; 0; 0])) + 2.
Proof.
  exact (bounded_lookahead boomStopEnv 2 _ boomStop_aborted_reachable).
Defined.

Lemma in_flight_bounded_witness :
  length (workers (after boomStopEnv 2 [0; 1; 0; 0])
            ≫= pendingOutcome boomStopEnv) ≤ 2 ∧
  length (invoked (after boomStopEnv 2 [0; 1; 0; 0]))
    ≤ length (results (after boomStopEnv 2 [0; 1; 0; 0]))
      + length (errors (after boomStopEnv 2 [0; 1; 0; 0])) + 2.
Proof.
  exact (in_flight_bounded boomStopEnv 2 _ boomStop_aborted_reachable).
Defined.

Lemma full_parallelism_reached_witness :
  ∃ st,
    run testEnv (seq 0 5) (launch testEnv 5) = Some st ∧
    workers st = AwaitFn <$> take 5 (env_items testEnv) ∧
    invoked st = take 5 (env_items testEnv) ∧
    length (workers st ≫= pendingOutcome testEnv) = 5.
Proof.
  apply (full_parallelism_reached testEnv 5). vm_compute. lia.
Defined.

Lemma resumptions_bounded_witness :
  length boomSchedule
    + resumptionsLeft boomEnv (after boomEnv 2 boomSchedule)
    ≤ 3 * length (env_items boomEnv) + 2.
Proof.
  apply (resumptions_bounded boomEnv 2 boomSchedule).
  vm_compute. reflexivity.
Defined.

Lemma abort_winds_down_witness :
  isAborted (after boomStopEnv 2 [0; 1; 0; 0; 1]) = true ∧
  cursor (after boomStopEnv 2 [0; 1; 0; 0; 1])
    = cursor (after boomStopEnv 2 [0; 1; 0; 0]) ∧
  pulls (after boomStopEnv 2 [0; 1; 0; 0; 1])
    = pulls (after boomStopEnv 2 [0; 1; 0; 0]) ∧
  invoked (after boomStopEnv 2 [0; 1; 0; 0; 1])
    = invoked (after boomStopEnv 2 [0; 1; 0; 0]) ∧
  results (after boomStopEnv 2 [0; 1; 0; 0; 1])
    = results (after boomStopEnv 2 [0; 1; 0; 0]) ∧
  length [1] ≤ 2 * length (workers (after boomStopEnv 2 [0; 1; 0; 0])).
Proof.
  apply (abort_winds_down boomStopEnv (after boomStopEnv 2 [0; 1; 0; 0])
           [1] (after boomStopEnv 2 [0; 1; 0; 0; 1]));
    vm_compute; reflexivity.
Defined.

Lemma abort_has_cause_witness :
  ∃ i err item,
    errors (after boomStopEnv 2 [0; 1; 0; 0]) !! i = Some err ∧
    failedItems (after boomStopEnv 2 [0; 1; 0; 0]) !! i = Some item ∧
    env_fn boomStopEnv item = Rejected err ∧ stopsOn boomStopEnv err item.
Proof.
  apply (abort_has_cause boomStopEnv 2 _ boomStop_aborted_reachable).
  vm_compute. reflexivity.
Defined.

Lemma testEnv_stop_misses_failures err item :
  env_fn testEnv item = Rejected err → ¬ stopsOn testEnv err item.
Proof.
  intros Hfn (h & action & Hh & Ha & Hs). cbn in Hh, Hfn. simplify_eq.
  unfold testHandler in Ha. destruct (Z.eqb_spec item 5) as [->|Hne].
  - vm_compute in Hfn. discriminate.
  - by simplify_eq.
Qed.

Lemma stop_signal_needs_a_failure_witness :
  isAborted (after testEnv 5 (seq 0 5)) = false ∧
  stoppedPrematurely (outcome (after testEnv 5 (seq 0 5))) = false.
Proof.
  apply (stop_signal_needs_a_failure testEnv 5 _
           testEnv_stop_misses_failures).
  apply (after_reachable testEnv 5 (seq 0 5)). vm_compute. reflexivity.
Defined.

Lemma outcomes_from_input_witness :
  (Fulfilled <$> results (after boomEnv 2 boomSchedule))
    ++ (Rejected <$> errors (after boomEnv 2 boomSchedule))
    ⊆+ env_fn boomEnv <$> env_items boomEnv ∧
  failedItems (after boomEnv 2 boomSchedule)
    ⊆+ List.filter (throws boomEnv) (env_items boomEnv).
Proof.
  exact (outcomes_from_input boomEnv 2 _ boomSchedule_reachable).
Defined.

Lemma happyEnv_succeeds item :
  item ∈ env_items happyEnv → throws happyEnv item = false.
Proof. done. Qed.

Lemma all_items_succeed_witness :
  ∃ sched st',
    run happyEnv sched (launch happyEnv 2) = Some st' ∧
    returns st' (outcome st') ∧ out_errors (outcome st') = [] ∧
    Fulfilled <$> out_results (outcome st')
      ≡ₚ env_fn happyEnv <$> env_items happyEnv.
Proof.
  destruct (all_items_succeed happyEnv 2 _ happyEnv_succeeds
              (reach_launch happyEnv 2)) as (_ & _ & _ & _ & Hrun).
  apply Hrun. lia.
Defined.

Lemma sequential_in_order_witness :
  results (after boomEnv 1 [0; 0; 0; 0; 0; 0; 0])
    = successes boomEnv (env_items boomEnv) ∧
  errors (after boomEnv 1 [0; 0; 0; 0; 0; 0; 0])
    = failures boomEnv (env_items boomEnv) ∧
  failedItems (after boomEnv 1 [0; 0; 0; 0; 0; 0; 0])
    = List.filter (throws boomEnv) (env_items boomEnv).
Proof.
  assert (reachable boomEnv 1 (after boomEnv 1 [0; 0; 0; 0; 0; 0; 0]))
    as Hreach.
  { apply (after_reachable boomEnv 1 [0; 0; 0; 0; 0; 0; 0]).
    vm_compute. reflexivity. }
  assert (returns (after boomEnv 1 [0; 0; 0; 0; 0; 0; 0])
            (outcome (after boomEnv 1 [0; 0; 0; 0; 0; 0; 0]))) as Hret.
  { split; vm_compute; reflexivity. }
  apply (proj2 (sequential_in_order boomEnv _ Hreach) _ Hret).
  vm_compute. reflexivity.
Defined.

Lemma empty_input_witness :
  invoked (launch emptyEnv 2) = [] ∧ results (launch emptyEnv 2) = [] ∧
  errors (launch emptyEnv 2) = [] ∧ failedItems (launch emptyEnv 2) = [] ∧
  isAborted (launch emptyEnv 2) = false ∧
  ∃ sched st',
    run emptyEnv sched (launch emptyEnv 2) = Some st' ∧
    returns st' (mkOutcome [] [] [] false).
Proof.
  exact (empty_input emptyEnv 2 _ eq_refl (reach_launch emptyEnv 2)).
Defined.

Lemma workers_launched_witness :
  ∃ n : nat,
    promisePool noChars (VIter [1; 2; 3]%Z) (VFun stopTask)
      (VNum (Fin (7 # 2))) VUndefined
      = Runs (mkEnv [1; 2; 3]%Z stopTask (handlerOf VUndefined)) n ∧
    (inject_Z (Z.of_nat n) <= 7 # 2)%Q ∧
    (7 # 2 < inject_Z (Z.of_nat n + 1))%Q.
Proof.
  apply (proj1 (proj2 (workers_launched noChars [1; 2; 3]%Z stopTask
                         VUndefined (or_introl eq_refl)))).
  - reflexivity.
  - reflexivity.
Defined.

Lemma input_must_be_truthy_iterable_witness :
  promisePool noChars (VNum (Fin 5) : @InputArg Z) (VFun stopTask)
    VUndefined VUndefined = Throws TypeError.
Proof.
  apply (proj2 (proj2 (input_must_be_truthy_iterable noChars
                         (VNum (Fin 5)) (VFun stopTask) VUndefined
                         VUndefined))).
  - reflexivity.
  - reflexivity.
  - by exists stopTask.
  - by left.
  - by left.
Defined.

Lemma versions_agree_witness :
  PoolOptions.promisePool noChars (VIter [1; 2; 3]%Z) (VFun stopTask)
    (VNum (Fin 0)) (VFun stopHandler)
  = PoolOptions.Returns
      (mkOutcome [] [inl "concurrency must be a positive number"] []
         false).
Proof.
  exact (versions_agree noChars (VIter [1; 2; 3]%Z) (VFun stopTask)
           (VNum (Fin 0)) (VFun stopHandler) ltac:(discriminate)).
Defined.

Lemma zero_workers_witness :
  promisePool noChars (VIter [1; 2; 3]%Z) (VFun stopTask)
    (VNum (Fin (1 # 2))) VUndefined
    = Runs (mkEnv [1; 2; 3]%Z stopTask (handlerOf VUndefined)) 0.
Proof.
  apply (proj1 (zero_workers noChars [1; 2; 3]%Z stopTask VUndefined
                  (or_introl eq_refl))); reflexivity.
Defined.

Lemma handler_called_once_per_failure_witness :
  handlerCalls (after boomStopEnv 2 [0; 1; 0; 0])
    = zip (errors (after boomStopEnv 2 [0; 1; 0; 0]))
        (failedItems (after boomStopEnv 2 [0; 1; 0; 0])).
Proof.
  exact (proj1 (handler_called_once_per_failure boomStopEnv 2 _
                  boomStop_aborted_reachable)).
Defined.

Lemma handler_throw_rejects_without_stopping_witness :
  rejects (after throwEnv 2 [0; 0; 0; 1; 1; 1]) "Boom" ∧
  results (after throwEnv 2 [0; 0; 0; 1; 1; 1]) = [inl 3%Z].
Proof.
  split; [|vm_compute; reflexivity].
  apply (proj1 (proj2 (handler_throw_rejects_without_stopping throwEnv 2))
           (after throwEnv 2 [0; 0; 0]) "Boom" [1; 1; 1]).
  - vm_compute. by left.
  - vm_compute. reflexivity.
Defined.

End MoreRuns.
